(** * IDAStarFinder: a shallow embedding of src/finders/IDAStarFinder.js

    The finder is a recursive, bounded depth-first search ([search]) driven
    by an outer loop that raises the cut-off ([findPath]).  The embedding
    keeps the shape of the JavaScript: the closure variables of [findPath]
    become explicit arguments, the mutable fields of the grid's nodes become
    a finite map that is threaded through the calls, the wall clock becomes
    a sequence of readings, and the unbounded recursion is cut by fuel.

    Numbers.  The finder adds step costs 1 and Math.SQRT2 to a heuristic
    estimate times a weight.  They are modelled exactly, as elements
    a + b·√2 of Z[√2], together with the value Infinity that the code uses
    as "no bound"; the rounding of IEEE doubles and NaN are not modelled.
    What hinges on how doubles round sums of √2, such as which of two
    nearly equal bounds is the smaller or whether the cost of the returned
    path is the least, is stated over the module [Binary64] further down,
    which repeats the embedding over binary64 numbers. *)

From Stdlib Require Import Floats ZArith List Bool Lia Reals Lra Psatz Sorted.
From stdpp Require Import base option gmap.
Import ListNotations.

Local Open Scope Z_scope.

(** ** Numbers *)

(** [ZS2 a b] is the number a + b·√2. *)
Record zs2 : Type := ZS2 { rat : Z; irr : Z }.

Definition zs2_zero : zs2 := ZS2 0 0.
Definition zs2_one : zs2 := ZS2 1 0.
(** Math.SQRT2 *)
Definition SQRT2 : zs2 := ZS2 0 1.
Definition zs2_of_Z (n : Z) : zs2 := ZS2 n 0.

Definition zs2_add (u v : zs2) : zs2 := ZS2 (rat u + rat v) (irr u + irr v).
Definition zs2_sub (u v : zs2) : zs2 := ZS2 (rat u - rat v) (irr u - irr v).
Definition zs2_mul (u v : zs2) : zs2 :=
  ZS2 (rat u * rat v + 2 * (irr u * irr v)) (rat u * irr v + irr u * rat v).

(** [zs2_pos u] decides 0 < a + b·√2 on the integers: when the two
    coefficients disagree in sign, compare the squares a² and 2b². *)
Definition zs2_pos (u : zs2) : bool :=
  let a := rat u in
  let b := irr u in
  if (0 <=? a) && (0 <=? b) then (0 <? a) || (0 <? b)
  else if (a <=? 0) && (b <=? 0) then false
  else if 0 <? a then 2 * (b * b) <? a * a
  else a * a <? 2 * (b * b).

(** JavaScript's [u < v] on finite numbers. *)
Definition zs2_ltb (u v : zs2) : bool := zs2_pos (zs2_sub v u).

Definition zs2_eqb (u v : zs2) : bool := (rat u =? rat v) && (irr u =? irr v).

Definition zs2_lt (u v : zs2) : Prop := zs2_ltb u v = true.
Definition zs2_le (u v : zs2) : Prop := zs2_ltb v u = false.

(** A JavaScript number as the finder meets it: finite, or Infinity. *)
Inductive num : Type :=
| Fin (v : zs2)
| Infinity.

(** [s < t] *)
Definition num_ltb (s t : num) : bool :=
  match s, t with
  | Fin u, Fin v => zs2_ltb u v
  | Fin _, Infinity => true
  | Infinity, _ => false
  end.

(** [t === Infinity] *)
Definition is_Infinity (t : num) : bool :=
  match t with Infinity => true | Fin _ => false end.

(** [t * 1000], for the one product the code takes of a possibly infinite
    number. *)
Definition num_times_1000 (t : num) : num :=
  match t with
  | Fin v => Fin (zs2_mul v (zs2_of_Z 1000))
  | Infinity => Infinity
  end.

(** Truthiness of a number, as [||] tests it: 0 is falsy.  (So is NaN,
    which is not a value of the model.) *)
Definition zs2_truthy (v : zs2) : bool := negb (zs2_eqb v zs2_zero).

Definition num_truthy (t : num) : bool :=
  match t with Fin v => zs2_truthy v | Infinity => true end.

(** ** Nodes and their instrumentation fields *)

(** A grid cell.  The grid owns one node object per coordinate, so the
    identity test [node == end] of the source is equality of nodes. *)
Record Node : Type := mkNode { x : Z; y : Z }.

#[global] Instance Node_eq_dec : EqDecision Node.
Proof. solve_decision. Defined.

Definition coord (n : Node) : Z * Z := (x n, y n).

(** The two fields that recursion tracking writes on a node object;
    [None] is JavaScript's [undefined]. *)
Record NodeInfo : Type := mkInfo {
  retainCount : option Z;
  tested : option bool
}.

(** The mutable part of the grid: the instrumentation fields of every node,
    by coordinate.  A node that was never written has both fields
    undefined. *)
Abbreviation NodeStore := (gmap (Z * Z) NodeInfo).

Definition info (s : NodeStore) (n : Node) : NodeInfo :=
  default (mkInfo None None) (s !! coord n).

(** [neighbor.retainCount = neighbor.retainCount + 1 || 1;
     if (neighbor.tested !== true) { neighbor.tested = true; }] *)
Definition retain (neighbor : Node) (s : NodeStore) : NodeStore :=
  let count :=
    match retainCount (info s neighbor) with
    | None => 1                                  (* undefined + 1 is NaN *)
    | Some c => if c + 1 =? 0 then 1 else c + 1
    end in
  <[coord neighbor := mkInfo (Some count) (Some true)]> s.

(** [if ((--neighbor.retainCount) === 0) { neighbor.tested = false; }]
    The decrement of an undefined count gives NaN, which is not 0 and is
    kept here as undefined. *)
Definition release (neighbor : Node) (s : NodeStore) : NodeStore :=
  let i := info s neighbor in
  match retainCount i with
  | None => s
  | Some c =>
      <[coord neighbor :=
          mkInfo (Some (c - 1)) (if c - 1 =? 0 then Some false else tested i)]> s
  end.

(** ** Collaborators: policy, grid, heuristics *)

Inductive DiagonalMovement : Type :=
| Never
| IfAtMostOneObstacle
| OnlyWhenNoObstacles.

(** The grid as the finder uses it: node lookup and ordered neighbour
    enumeration under a policy. *)
Record Grid : Type := mkGrid {
  getNodeAt : Z -> Z -> Node;
  getNeighbors : Node -> DiagonalMovement -> list Node
}.

Module Heuristic.

(** Modelled from the spec: the heuristic module is not among the sources;
    Manhattan distance is dx + dy. *)
Definition manhattan (dx dy : Z) : zs2 := zs2_of_Z (dx + dy).

(** Modelled from the spec: the heuristic module is not among the sources;
    the octile estimate takes the shorter side diagonally and the rest
    straight, (√2 - 1)·min(dx,dy) + max(dx,dy). *)
Definition octile (dx dy : Z) : zs2 :=
  let F := zs2_sub SQRT2 zs2_one in
  if dx <? dy then zs2_add (zs2_mul F (zs2_of_Z dx)) (zs2_of_Z dy)
  else zs2_add (zs2_mul F (zs2_of_Z dy)) (zs2_of_Z dx).

End Heuristic.

(** ** The constructor *)

(** The [opt] object; an absent property is [None]. *)
Record Options : Type := mkOptions {
  opt_allowDiagonal : option bool;
  opt_dontCrossCorners : option bool;
  opt_diagonalMovement : option DiagonalMovement;
  opt_heuristic : option (Z -> Z -> zs2);
  opt_weight : option zs2;
  opt_trackRecursion : option bool;
  opt_timeLimit : option num
}.

(** [opt || {}] *)
Definition noOptions : Options := mkOptions None None None None None None None.

Record Finder : Type := mkFinder {
  diagonalMovement : DiagonalMovement;
  heuristic : Z -> Z -> zs2;
  weight : zs2;
  trackRecursion : bool;
  timeLimit : num
}.

(** [a || b] on an optional boolean. *)
Definition truthy_flag (b : option bool) : bool := default false b.

Definition IDAStarFinder (opt : Options) : Finder :=
  let diagonalMovement :=
    match opt_diagonalMovement opt with
    | Some d => d
    | None =>
        if negb (truthy_flag (opt_allowDiagonal opt)) then Never
        else if truthy_flag (opt_dontCrossCorners opt) then OnlyWhenNoObstacles
        else IfAtMostOneObstacle
    end in
  {| diagonalMovement := diagonalMovement;
     heuristic :=
       match diagonalMovement with
       | Never => default Heuristic.manhattan (opt_heuristic opt)
       | _ => default Heuristic.octile (opt_heuristic opt)
       end;
     weight :=
       match opt_weight opt with
       | Some w => if zs2_truthy w then w else zs2_one
       | None => zs2_one
       end;
     trackRecursion := truthy_flag (opt_trackRecursion opt);
     timeLimit :=
       match opt_timeLimit opt with
       | Some t => if num_truthy t then t else Infinity
       | None => Infinity
       end |}.

(** ** findPath *)

(** The route array.  [None] is a hole. *)
Abbreviation Route := (list (option (Z * Z))).

(** [a[i] = v] on a JavaScript array: writing past the end grows the array
    and leaves holes. *)
Fixpoint array_set {A : Type} (i : nat) (v : A) (a : list (option A))
  : list (option A) :=
  match i, a with
  | O, [] => [Some v]
  | O, _ :: a' => Some v :: a'
  | S i', [] => None :: array_set i' v []
  | S i', e :: a' => e :: array_set i' v a'
  end.

(** What [search] returns: a number (the new cut-off) or a node. *)
Inductive Result : Type :=
| Bound (t : num)
| Found (n : Node).

(** The state one call of [findPath] acts on: its counter [visitedNode], the
    number of clock readings taken so far, and the node fields. *)
Record State : Type := mkState {
  visitedNode : nat;
  reads : nat;
  store : NodeStore
}.

Definition count_visit (st : State) : State :=
  mkState (S (visitedNode st)) (reads st) (store st).
Definition count_read (st : State) : State :=
  mkState (visitedNode st) (S (reads st)) (store st).
Definition on_store (f : NodeStore -> NodeStore) (st : State) : State :=
  mkState (visitedNode st) (reads st) (f (store st)).

(** [h] and [cost], the two local functions of [findPath]. *)
Definition h (this : Finder) (a b : Node) : zs2 :=
  heuristic this (Z.abs (x b - x a)) (Z.abs (y b - y a)).

Definition cost (a b : Node) : zs2 :=
  if (x a =? x b) || (y a =? y b) then zs2_one else SQRT2.

(** [new Date().getTime() - startTime > this.timeLimit*1000] *)
Definition expired (this : Finder) (startTime now : Z) : bool :=
  num_ltb (num_times_1000 (timeLimit this)) (Fin (zs2_of_Z (now - startTime))).

(** [this.timeLimit > 0] *)
Definition limited (this : Finder) : bool :=
  num_ltb (Fin zs2_zero) (timeLimit this).

Section Search.

(** The variables [search] closes over.  [clock k] is the k-th reading of
    [new Date().getTime()] during the call. *)
Variable this : Finder.
Variable grid : Grid.
Variable clock : nat -> Z.
Variable startTime : Z.
Variable endNode : Node.

Definition Outcome : Type := option (Result * Route * State).

(** The [for] loop of [search] over the neighbours of [node], with the
    recursive call abstracted as [call]. *)
Fixpoint search_loop (call : Node -> Route -> State -> Outcome)
    (node : Node) (depth : nat) (neighbors : list Node) (min : num)
    (route : Route) (st : State) : Outcome :=
  match neighbors with
  | [] => Some (Bound min, route, st)
  | neighbor :: rest =>
      let st1 :=
        if trackRecursion this then on_store (retain neighbor) st else st in
      match call neighbor route st1 with
      | None => None
      | Some (Found t, route', st2) =>
          Some (Found t, array_set depth (coord node) route', st2)
      | Some (Bound t, route', st2) =>
          let st3 :=
            if trackRecursion this then on_store (release neighbor) st2
            else st2 in
          search_loop call node depth rest
            (if num_ltb t min then t else min) route' st3
      end
  end.

Fixpoint search (fuel : nat) (node : Node) (g cutoff : zs2) (route : Route)
    (depth : nat) (st : State) : Outcome :=
  match fuel with
  | O => None
  | S fuel' =>
      let st := count_visit st in
      let '(timeout, st) :=
        if limited this
        then (expired this startTime (clock (reads st)), count_read st)
        else (false, st) in
      if timeout then Some (Bound Infinity, route, st)
      else
        let f := zs2_add g (zs2_mul (h this node endNode) (weight this)) in
        if zs2_ltb cutoff f then Some (Bound (Fin f), route, st)
        else if decide (node = endNode)
        then Some (Found node, array_set depth (coord node) route, st)
        else
          search_loop
            (fun neighbor route st =>
               search fuel' neighbor (zs2_add g (cost node neighbor)) cutoff
                 route (S depth) st)
            node depth (getNeighbors grid node (diagonalMovement this))
            Infinity route st
  end.

(** The outer [for (j = 0; true; j++)] loop, run for at most [j] sweeps.
    Besides the result it reports the cut-off of every sweep it began. *)
Fixpoint sweeps (j fuel : nat) (start : Node) (cutoff : zs2) (st : State)
  : list zs2 * option (Route * State) :=
  match j with
  | O => ([], None)
  | S j' =>
      match search fuel start zs2_zero cutoff [] 0 st with
      | None => ([cutoff], None)
      | Some (Bound Infinity, _, st') => ([cutoff], Some ([], st'))
      | Some (Found _, route, st') => ([cutoff], Some (route, st'))
      | Some (Bound (Fin t), _, st') =>
          let '(cutoffs, r) := sweeps j' fuel start t st' in
          (cutoff :: cutoffs, r)
      end
  end.

End Search.

(** [findPath], with the cut-offs of its sweeps and its final state kept.
    [fuel] bounds both the number of sweeps and the recursion depth; the
    result is [None] when it does not suffice. *)
Definition findPath_run (fuel : nat) (this : Finder) (clock : nat -> Z)
    (startX startY endX endY : Z) (grid : Grid) (s : NodeStore)
  : list zs2 * option (Route * State) :=
  let startTime := clock O in
  let start := getNodeAt grid startX startY in
  let endNode := getNodeAt grid endX endY in
  let cutoff := h this start endNode in
  sweeps this grid clock startTime endNode fuel fuel start cutoff
    (mkState 0 1 s).

Definition findPath (fuel : nat) (this : Finder) (clock : nat -> Z)
    (startX startY endX endY : Z) (grid : Grid) (s : NodeStore)
  : option Route :=
  option_map fst (snd (findPath_run fuel this clock startX startY endX endY grid s)).

(** The cut-offs of the sweeps the call began, in order. *)
Definition cutoffs (fuel : nat) (this : Finder) (clock : nat -> Z)
    (startX startY endX endY : Z) (grid : Grid) (s : NodeStore) : list zs2 :=
  fst (findPath_run fuel this clock startX startY endX endY grid s).

(** The node fields after the call. *)
Definition findPath_store (fuel : nat) (this : Finder) (clock : nat -> Z)
    (startX startY endX endY : Z) (grid : Grid) (s : NodeStore)
  : option NodeStore :=
  option_map (fun r => store (snd r))
    (snd (findPath_run fuel this clock startX startY endX endY grid s)).

(** ** A concrete grid *)

Module MatrixGrid.

(** Modelled from the spec: the Grid class is not among the sources.  A
    rectangular grid is a list of rows of walkability flags; a cell outside
    the rectangle is not walkable.  Orthogonal neighbours come first (up,
    right, down, left), then the diagonal ones (up-left, up-right,
    down-right, down-left); a diagonal step is allowed by
    [IfAtMostOneObstacle] when at least one of the two orthogonal cells
    beside it is walkable, and by [OnlyWhenNoObstacles] when both are. *)
Definition isWalkableAt (m : list (list bool)) (cx cy : Z) : bool :=
  (0 <=? cx) && (0 <=? cy) &&
  nth (Z.to_nat cx) (nth (Z.to_nat cy) m []) false.

Definition neighborsOf (m : list (list bool)) (node : Node)
    (policy : DiagonalMovement) : list Node :=
  let cx := x node in
  let cy := y node in
  let pick (ok : bool) (px py : Z) : list Node :=
    if ok && isWalkableAt m px py then [mkNode px py] else [] in
  let s0 := isWalkableAt m cx (cy - 1) in
  let s1 := isWalkableAt m (cx + 1) cy in
  let s2 := isWalkableAt m cx (cy + 1) in
  let s3 := isWalkableAt m (cx - 1) cy in
  let straight :=
    pick true cx (cy - 1) ++ pick true (cx + 1) cy ++
    pick true cx (cy + 1) ++ pick true (cx - 1) cy in
  let diag (d0 d1 d2 d3 : bool) :=
    pick d0 (cx - 1) (cy - 1) ++ pick d1 (cx + 1) (cy - 1) ++
    pick d2 (cx + 1) (cy + 1) ++ pick d3 (cx - 1) (cy + 1) in
  match policy with
  | Never => straight
  | OnlyWhenNoObstacles =>
      straight ++ diag (s3 && s0) (s0 && s1) (s1 && s2) (s2 && s3)
  | IfAtMostOneObstacle =>
      straight ++ diag (s3 || s0) (s0 || s1) (s1 || s2) (s2 || s3)
  end.

Definition make (m : list (list bool)) : Grid :=
  mkGrid mkNode (neighborsOf m).

(** An obstacle-free grid of the given width and height. *)
Definition open (width height : nat) : Grid :=
  make (repeat (repeat true width) height).

End MatrixGrid.

(** A clock that stands still: no time passes during the call. *)
Definition frozen : nat -> Z := fun _ => 0.

(** * Notions used to state and prove the properties *)

(** The real number that a pair denotes. *)
Definition toR (u : zs2) : R := (IZR (rat u) + IZR (irr u) * sqrt 2)%R.

(** The writes [route[depth] = ...], [route[depth+1] = ...], ... that a
    success leaves behind; the deepest frame writes first. *)
Fixpoint fill (depth : nat) (cs : list (Z * Z)) (route : Route) : Route :=
  match cs with
  | [] => route
  | c :: rest => array_set depth c (fill (S depth) rest route)
  end.

(** A path as the array [findPath] returns. *)
Definition route_of (p : list Node) : Route := map (fun n => Some (coord n)) p.

(** The sum of the step costs along a path. *)
Fixpoint pathCost (p : list Node) : zs2 :=
  match p with
  | a :: (b :: _) as rest => zs2_add (cost a b) (pathCost rest)
  | _ => zs2_zero
  end.

(** [this] with the recursion-tracking flag set to [b]. *)
Definition setTrackRecursion (b : bool) (this : Finder) : Finder :=
  mkFinder (diagonalMovement this) (heuristic this) (weight this) b
    (timeLimit this).

(** The time check of [search] never fires under this clock. *)
Definition never_expires (this : Finder) (clock : nat -> Z) : Prop :=
  forall k, limited this && expired this (clock O) (clock k) = false.

(** A node whose instrumentation is at rest: no active depth count, not
    being visited.  A field that was never written counts as at rest. *)
Definition at_rest (i : NodeInfo) : Prop :=
  (retainCount i = None \/ retainCount i = Some 0) /\
  (tested i = None \/ tested i = Some false).

(** What the instrumentation of a node says: its active depth count (0 when
    never written) and whether it is marked as being visited. *)
Definition activity (i : NodeInfo) : Z * bool :=
  (default 0 (retainCount i), bool_decide (tested i = Some true)).

(** A node is marked as being visited exactly while its count is positive. *)
Definition consistent (i : NodeInfo) : Prop :=
  0 <= fst (activity i) /\ (snd (activity i) = true <-> 0 < fst (activity i)).

Definition same_activity (s s' : NodeStore) : Prop :=
  forall n, activity (info s n) = activity (info s' n).

(** A number returned as a bound is Infinity or lies above the cut-off. *)
Definition beyond (cutoff : zs2) (t : num) : Prop :=
  match t with Fin b => zs2_lt cutoff b | Infinity => True end.

(** [low M t]: the bound [t] is finite and at most [M]. *)
Definition low (M : R) (t : num) : Prop :=
  exists b, t = Fin b /\ (toR b <= M)%R.

(** What the search computes once the clock and the node fields are left
    out: a bound, or the path from the node examined to the goal. *)
Inductive PResult : Type :=
| PBound (t : num)
| PFound (path : list Node).

Section Pure.

Variable this : Finder.
Variable grid : Grid.
Variable endNode : Node.

(** The weighted estimate at a node, [h(node, end) * this.weight]. *)
Definition hw (n : Node) : zs2 := zs2_mul (h this n endNode) (weight this).

Fixpoint pure_loop (call : Node -> option PResult) (node : Node)
    (neighbors : list Node) (min : num) : option PResult :=
  match neighbors with
  | [] => Some (PBound min)
  | neighbor :: rest =>
      match call neighbor with
      | None => None
      | Some (PFound p) => Some (PFound (node :: p))
      | Some (PBound t) =>
          pure_loop call node rest (if num_ltb t min then t else min)
      end
  end.

Fixpoint pure_search (fuel : nat) (node : Node) (g cutoff : zs2)
  : option PResult :=
  match fuel with
  | O => None
  | S fuel' =>
      let f := zs2_add g (hw node) in
      if zs2_ltb cutoff f then Some (PBound (Fin f))
      else if decide (node = endNode) then Some (PFound [node])
      else
        pure_loop
          (fun neighbor =>
             pure_search fuel' neighbor (zs2_add g (cost node neighbor)) cutoff)
          node (getNeighbors grid node (diagonalMovement this)) Infinity
  end.

Fixpoint pure_sweeps (j fuel : nat) (start : Node) (cutoff : zs2)
  : list zs2 * option (list Node) :=
  match j with
  | O => ([], None)
  | S j' =>
      match pure_search fuel start zs2_zero cutoff with
      | None => ([cutoff], None)
      | Some (PBound Infinity) => ([cutoff], Some [])
      | Some (PFound p) => ([cutoff], Some p)
      | Some (PBound (Fin t)) =>
          let '(cutoffs, r) := pure_sweeps j' fuel start t in
          (cutoff :: cutoffs, r)
      end
  end.

(** The stateful outcome [o] of a call entered at [depth] with [route] agrees
    with the pure result [r]. *)
Definition refines (depth : nat) (route : Route) (o : Outcome)
    (r : option PResult) : Prop :=
  match r with
  | None => o = None
  | Some (PBound t) => exists st', o = Some (Bound t, route, st')
  | Some (PFound p) =>
      exists st', o = Some (Found endNode, fill depth (map coord p) route, st')
  end.

(** [walk n p]: [p] starts at [n], every step goes to a neighbour under the
    configured policy, and [p] ends at the goal. *)
Inductive walk : Node -> list Node -> Prop :=
| walk_goal : walk endNode [endNode]
| walk_step n m p :
    In m (getNeighbors grid n (diagonalMovement this)) ->
    walk m p -> walk n (n :: p).

(** Along the path [p], entered with accumulated cost [g], no node has
    f = g + h·weight above [M]. *)
Fixpoint f_below (M : R) (g : zs2) (p : list Node) : Prop :=
  match p with
  | [] => True
  | a :: rest =>
      (toR g + toR (hw a) <= M)%R /\
      match rest with
      | [] => True
      | b :: _ => f_below M (zs2_add g (cost a b)) rest
      end
  end.

(** The values f = g + h·weight can take when g counts at most [K] straight
    and at most [K] diagonal steps and the node is one of [cells]. *)
Definition candidates (cells : list Node) (K : nat) : list zs2 :=
  flat_map (fun a =>
    flat_map (fun b =>
      map (fun m => zs2_add (ZS2 (Z.of_nat a) (Z.of_nat b)) (hw m)) cells)
      (seq 0 (S K)))
    (seq 0 (S K)).

(** How many candidate values lie above [c]. *)
Definition above (l : list zs2) (c : zs2) : nat :=
  length (List.filter (zs2_ltb c) l).

End Pure.

(** A finite grid: every neighbour of a cell of [cells] is in [cells]. *)
Definition closed_under (grid : Grid) (policy : DiagonalMovement)
    (cells : list Node) : Prop :=
  forall n m, In n cells -> In m (getNeighbors grid n policy) -> In m cells.
(** ** Example inputs *)

(** [new IDAStarFinder()] *)
Definition plainFinder : Finder := IDAStarFinder noOptions.

(** [new IDAStarFinder({weight: 2})] *)
Definition weightedFinder : Finder :=
  IDAStarFinder (mkOptions None None None None (Some (zs2_of_Z 2)) None None).

(** [new IDAStarFinder({trackRecursion: true})] *)
Definition trackingFinder : Finder :=
  IDAStarFinder (mkOptions None None None None None (Some true) None).

(** [new IDAStarFinder({timeLimit: 1})]: one second. *)
Definition hurriedFinder : Finder :=
  IDAStarFinder (mkOptions None None None None None None (Some (Fin zs2_one))).

(** [new IDAStarFinder({diagonalMovement: DiagonalMovement.IfAtMostOneObstacle})] *)
Definition diagonalFinder : Finder :=
  IDAStarFinder
    (mkOptions None None (Some IfAtMostOneObstacle) None None None None).

(** Two cells side by side. *)
Definition pairGrid : Grid := MatrixGrid.open 2 1.

(** A corridor of four cells whose third cell is blocked: the last cell
    cannot be reached from the first. *)
Definition walledGrid : Grid := MatrixGrid.make [[true; true; false; true]].

(** A clock that jumps five seconds ahead at its third reading. *)
Definition lateClock : nat -> Z := fun k => if (k <? 2)%nat then 0 else 5000.

(** Three cells in a row. *)
Definition rowGrid : Grid := MatrixGrid.open 3 1.

(** A clock that jumps five seconds ahead at its fourth reading. *)
Definition laterClock : nat -> Z := fun k => if (k <? 3)%nat then 0 else 5000.
(** ** Further notions *)

(** What a call of [search] at [node], entered at [depth] with [route], may
    hand back: a bound with the route untouched, or the goal with a path
    from [node] to the goal written from [depth] on. *)
Definition sound_outcome (this : Finder) (grid : Grid) (endNode : Node)
    (node : Node) (depth : nat) (route : Route)
    (o : option (Result * Route * State)) : Prop :=
  match o with
  | None => True
  | Some (Bound _, route', _) => route' = route
  | Some (Found t, route', _) =>
      t = endNode /\
      exists p, walk this grid endNode node p /\
                route' = fill depth (map coord p) route
  end.

(** The node fields after retaining the nodes of [l] one after the other. *)
Definition retains (l : list Node) (s : NodeStore) : NodeStore :=
  fold_left (fun acc n => retain n acc) l s.

(** How often [n] occurs in [l]. *)
Definition occurrences (n : Node) (l : list Node) : Z :=
  Z.of_nat (count_occ Node_eq_dec l n).

(** The sentinel of a time-out is handed up by the pending frames: a call of
    [search] in the course of which the clock was read at or after its
    [k0]-th reading returns Infinity. *)
Definition sentinel_handed_up (this : Finder) (grid : Grid) (clock : nat -> Z)
    (endNode : Node) (k0 : nat) : Prop :=
  forall fuel node g cutoff route depth st r route' st',
    search this grid clock (clock O) endNode fuel node g cutoff route depth st
    = Some (r, route', st') ->
    (k0 < reads st')%nat ->
    r = Bound Infinity.

(** * The finder over IEEE doubles

    The embedding above computes exactly.  [Binary64] repeats it with the
    numbers of JavaScript as they are: binary64 floating-point numbers, with
    rounding, signed zeros, infinities and NaN.  What depends on how sums of
    √2 round is stated over this module.  Nodes, grids, routes, the state and
    the node fields are the ones above; only what touches a number is
    written again. *)

Module Binary64.

(** ** Numbers *)

(** An integer as a JavaScript number: the nearest double. *)
Definition of_Z (n : Z) : float :=
  SF2Prim (binary_normalize prec emax n 0 false).

(** Math.SQRT2, the double nearest to √2. *)
Definition SQRT2 : float := 0x1.6a09e667f3bcdp+0%float.

(** Truthiness of a number, as [||] tests it: 0, -0 and NaN are falsy. *)
Definition truthy (v : float) : bool :=
  negb (PrimFloat.eqb v 0) && PrimFloat.eqb v v.

(** [a <= b] holds of no NaN; [valid a] says that [a] is not NaN. *)
Definition valid (a : float) : Prop := PrimFloat.leb a a = true.

Module Heuristic.

(** Modelled from the spec: the heuristic module is not among the sources;
    Manhattan distance is dx + dy. *)
Definition manhattan (dx dy : Z) : float := (of_Z dx + of_Z dy)%float.

(** Modelled from the spec: the heuristic module is not among the sources;
    the octile estimate is F·min(dx,dy) + max(dx,dy) with F = SQRT2 - 1,
    computed as (dx < dy) ? F * dx + dy : F * dy + dx. *)
Definition octile (dx dy : Z) : float :=
  let F := (SQRT2 - 1)%float in
  if PrimFloat.ltb (of_Z dx) (of_Z dy)
  then (F * of_Z dx + of_Z dy)%float
  else (F * of_Z dy + of_Z dx)%float.

End Heuristic.

(** ** The constructor *)

(** The [opt] object; an absent property is [None]. *)
Record Options : Type := mkOptions {
  opt_allowDiagonal : option bool;
  opt_dontCrossCorners : option bool;
  opt_diagonalMovement : option DiagonalMovement;
  opt_heuristic : option (Z -> Z -> float);
  opt_weight : option float;
  opt_trackRecursion : option bool;
  opt_timeLimit : option float
}.

(** [opt || {}] *)
Definition noOptions : Options := mkOptions None None None None None None None.

(** The fields of a constructed finder. *)
Record Finder : Type := mkFinder {
  diagonalMovement : DiagonalMovement;
  heuristic : Z -> Z -> float;
  weight : float;
  trackRecursion : bool;
  timeLimit : float
}.

Definition IDAStarFinder (opt : Options) : Finder :=
  let diagonalMovement :=
    match opt_diagonalMovement opt with
    | Some d => d
    | None =>
        if negb (truthy_flag (opt_allowDiagonal opt)) then Never
        else if truthy_flag (opt_dontCrossCorners opt) then OnlyWhenNoObstacles
        else IfAtMostOneObstacle
    end in
  {| diagonalMovement := diagonalMovement;
     heuristic :=
       match diagonalMovement with
       | Never => default Heuristic.manhattan (opt_heuristic opt)
       | _ => default Heuristic.octile (opt_heuristic opt)
       end;
     weight :=
       match opt_weight opt with
       | Some w => if truthy w then w else 1%float
       | None => 1%float
       end;
     trackRecursion := truthy_flag (opt_trackRecursion opt);
     timeLimit :=
       match opt_timeLimit opt with
       | Some t => if truthy t then t else infinity
       | None => infinity
       end |}.

(** ** findPath *)

(** What [search] returns: a number (the new cut-off) or a node. *)
Inductive Result : Type :=
| Bound (t : float)
| Found (n : Node).

(** [h] and [cost], the two local functions of [findPath]. *)
Definition h (this : Finder) (a b : Node) : float :=
  heuristic this (Z.abs (x b - x a)) (Z.abs (y b - y a)).

Definition cost (a b : Node) : float :=
  if (x a =? x b) || (y a =? y b) then 1%float else SQRT2.

(** [new Date().getTime() - startTime > this.timeLimit*1000] *)
Definition expired (this : Finder) (startTime now : Z) : bool :=
  PrimFloat.ltb (timeLimit this * 1000)%float (of_Z (now - startTime)).

(** [this.timeLimit > 0] *)
Definition limited (this : Finder) : bool :=
  PrimFloat.ltb 0%float (timeLimit this).

Section Search.

(** The variables [search] closes over.  [clock k] is the k-th reading of
    [new Date().getTime()] during the call. *)
Variable this : Finder.
Variable grid : Grid.
Variable clock : nat -> Z.
Variable startTime : Z.
Variable endNode : Node.

Definition Outcome : Type := option (Result * Route * State).

(** The [for] loop of [search] over the neighbours of [node], with the
    recursive call abstracted as [call]. *)
Fixpoint search_loop (call : Node -> Route -> State -> Outcome)
    (node : Node) (depth : nat) (neighbors : list Node) (min : float)
    (route : Route) (st : State) : Outcome :=
  match neighbors with
  | [] => Some (Bound min, route, st)
  | neighbor :: rest =>
      let st1 :=
        if trackRecursion this then on_store (retain neighbor) st else st in
      match call neighbor route st1 with
      | None => None
      | Some (Found t, route', st2) =>
          Some (Found t, array_set depth (coord node) route', st2)
      | Some (Bound t, route', st2) =>
          let st3 :=
            if trackRecursion this then on_store (release neighbor) st2
            else st2 in
          search_loop call node depth rest
            (if PrimFloat.ltb t min then t else min) route' st3
      end
  end.

(** [search(node, g, cutoff, route, depth)]; [None] when the fuel runs out. *)
Fixpoint search (fuel : nat) (node : Node) (g cutoff : float) (route : Route)
    (depth : nat) (st : State) : Outcome :=
  match fuel with
  | O => None
  | S fuel' =>
      let st := count_visit st in
      let '(timeout, st) :=
        if limited this
        then (expired this startTime (clock (reads st)), count_read st)
        else (false, st) in
      if timeout then Some (Bound infinity, route, st)
      else
        let f := (g + h this node endNode * weight this)%float in
        if PrimFloat.ltb cutoff f then Some (Bound f, route, st)
        else if decide (node = endNode)
        then Some (Found node, array_set depth (coord node) route, st)
        else
          search_loop
            (fun neighbor route st =>
               search fuel' neighbor (g + cost node neighbor)%float cutoff
                 route (S depth) st)
            node depth (getNeighbors grid node (diagonalMovement this))
            infinity route st
  end.

(** The outer loop of [findPath]: at most [j] sweeps, each a call of
    [search] from the start with a fresh route.  The result carries the
    cut-offs of the sweeps begun and, if the loop returned, the path. *)
Fixpoint sweeps (j fuel : nat) (start : Node) (cutoff : float) (st : State)
  : list float * option (Route * State) :=
  match j with
  | O => ([], None)
  | S j' =>
      match search fuel start 0%float cutoff [] 0 st with
      | None => ([cutoff], None)
      | Some (Found _, route, st') => ([cutoff], Some (route, st'))
      | Some (Bound t, _, st') =>
          if PrimFloat.eqb t infinity then ([cutoff], Some ([], st'))
          else
            let '(cutoffs, r) := sweeps j' fuel start t st' in
            (cutoff :: cutoffs, r)
      end
  end.

End Search.

(** [findPath], with the cut-offs of its sweeps and its final state kept.
    [fuel] bounds both the number of sweeps and the recursion depth; the
    result is [None] when it does not suffice. *)
Definition findPath_run (fuel : nat) (this : Finder) (clock : nat -> Z)
    (startX startY endX endY : Z) (grid : Grid) (s : NodeStore)
  : list float * option (Route * State) :=
  let startTime := clock O in
  let start := getNodeAt grid startX startY in
  let endNode := getNodeAt grid endX endY in
  let cutoff := h this start endNode in
  sweeps this grid clock startTime endNode fuel fuel start cutoff
    (mkState 0 1 s).

Definition findPath (fuel : nat) (this : Finder) (clock : nat -> Z)
    (startX startY endX endY : Z) (grid : Grid) (s : NodeStore)
  : option Route :=
  option_map fst (snd (findPath_run fuel this clock startX startY endX endY grid s)).

(** The cut-offs of the sweeps the call began, in order. *)
Definition cutoffs (fuel : nat) (this : Finder) (clock : nat -> Z)
    (startX startY endX endY : Z) (grid : Grid) (s : NodeStore) : list float :=
  fst (findPath_run fuel this clock startX startY endX endY grid s).

(** ** Notions used to state and prove the properties *)

(** The time check of [search] never fires under this clock. *)
Definition never_expires (this : Finder) (clock : nat -> Z) : Prop :=
  forall k, limited this && expired this (clock O) (clock k) = false.

(** What the search computes once the clock and the node fields are left
    out: a bound, or the path from the node examined to the goal. *)
Inductive PResult : Type :=
| PBound (t : float)
| PFound (path : list Node).

Section Pure.

Variable this : Finder.
Variable grid : Grid.
Variable endNode : Node.

(** The weighted estimate at a node, [h(node, end) * this.weight]. *)
Definition hw (n : Node) : float := (h this n endNode * weight this)%float.

Fixpoint pure_loop (call : Node -> option PResult) (node : Node)
    (neighbors : list Node) (min : float) : option PResult :=
  match neighbors with
  | [] => Some (PBound min)
  | neighbor :: rest =>
      match call neighbor with
      | None => None
      | Some (PFound p) => Some (PFound (node :: p))
      | Some (PBound t) =>
          pure_loop call node rest (if PrimFloat.ltb t min then t else min)
      end
  end.

Fixpoint pure_search (fuel : nat) (node : Node) (g cutoff : float)
  : option PResult :=
  match fuel with
  | O => None
  | S fuel' =>
      let f := (g + hw node)%float in
      if PrimFloat.ltb cutoff f then Some (PBound f)
      else if decide (node = endNode) then Some (PFound [node])
      else
        pure_loop
          (fun neighbor =>
             pure_search fuel' neighbor (g + cost node neighbor)%float cutoff)
          node (getNeighbors grid node (diagonalMovement this)) infinity
  end.

Fixpoint pure_sweeps (j fuel : nat) (start : Node) (cutoff : float)
  : list float * option (list Node) :=
  match j with
  | O => ([], None)
  | S j' =>
      match pure_search fuel start 0%float cutoff with
      | None => ([cutoff], None)
      | Some (PFound p) => ([cutoff], Some p)
      | Some (PBound t) =>
          if PrimFloat.eqb t infinity then ([cutoff], Some [])
          else
            let '(cutoffs, r) := pure_sweeps j' fuel start t in
            (cutoff :: cutoffs, r)
      end
  end.

(** The stateful outcome [o] of a call entered at [depth] with [route] agrees
    with the pure result [r]. *)
Definition refines (depth : nat) (route : Route) (o : Outcome)
    (r : option PResult) : Prop :=
  match r with
  | None => o = None
  | Some (PBound t) => exists st', o = Some (Bound t, route, st')
  | Some (PFound p) =>
      exists st', o = Some (Found endNode, fill depth (map coord p) route, st')
  end.

(** [walk n p]: [p] starts at [n], every step goes to a neighbour under the
    configured policy, and [p] ends at the goal. *)
Inductive walk : Node -> list Node -> Prop :=
| walk_goal : walk endNode [endNode]
| walk_step n m p :
    In m (getNeighbors grid n (diagonalMovement this)) ->
    walk m p -> walk n (n :: p).

(** The cost of the steps of [p] as [search] adds it up on the way down:
    starting from [g], one step after the other. *)
Fixpoint accum (g : float) (p : list Node) : float :=
  match p with
  | a :: (b :: _) as rest => accum (g + cost a b)%float rest
  | _ => g
  end.

(** The cost of a path, as [search] has it in [g] at the path's last node. *)
Definition pathCost (p : list Node) : float := accum 0%float p.

(** Along the path [p], entered with accumulated cost [g], every
    f = g + h·weight that [search] computes is at most [M]. *)
Fixpoint f_below (M g : float) (p : list Node) : Prop :=
  match p with
  | [] => True
  | a :: rest =>
      PrimFloat.leb (g + hw a)%float M = true /\
      match rest with
      | [] => True
      | b :: _ => f_below M (g + cost a b)%float rest
      end
  end.

(** The estimate is admissible along the path [q] from [start], in the
    arithmetic of the code: the estimate at the start, which is the first
    cut-off, and every f that [search] computes on its way along [q] are at
    most the cost of [q]. *)
Definition admissible_along (start : Node) (q : list Node) : Prop :=
  PrimFloat.leb (h this start endNode) (pathCost q) = true /\
  f_below (pathCost q) 0%float q.

(** Below the bound [M] the search tree from [node], entered with cost [g],
    is at most [D] levels deep: every branch reaches, within [D] steps, the
    goal or a node whose f lies above [M]. *)
Fixpoint bounded (M : float) (D : nat) (node : Node) (g : float) : bool :=
  if PrimFloat.ltb M (g + hw node)%float then true
  else if decide (node = endNode) then true
  else
    match D with
    | O => false
    | S D' =>
        forallb (fun neighbor => bounded M D' neighbor (g + cost node neighbor)%float)
          (getNeighbors grid node (diagonalMovement this))
    end.

(** The values of f at the nodes of that tree. *)
Fixpoint frontier (M : float) (D : nat) (node : Node) (g : float)
  : list float :=
  (g + hw node)%float ::
  (if PrimFloat.ltb M (g + hw node)%float then []
   else if decide (node = endNode) then []
   else
     match D with
     | O => []
     | S D' =>
         flat_map (fun neighbor => frontier M D' neighbor (g + cost node neighbor)%float)
           (getNeighbors grid node (diagonalMovement this))
     end).

(** How many of the values of [l] lie above [c]. *)
Definition above (l : list float) (c : float) : nat :=
  length (List.filter (PrimFloat.ltb c) l).

End Pure.

(** [low M r]: if [r] is a bound, it is at most [M]. *)
Definition low (M : float) (r : PResult) : Prop :=
  match r with
  | PBound t => PrimFloat.leb t M = true
  | PFound _ => True
  end.

(** The costs, added up from [g], of the walks of at most [k] steps that
    lead from [node] to the goal. *)
Fixpoint costs_to_goal (this : Finder) (grid : Grid) (endNode : Node)
    (k : nat) (node : Node) (g : float) : list float :=
  (if decide (node = endNode) then [g] else []) ++
  match k with
  | O => []
  | S k' =>
      flat_map
        (fun neighbor =>
           costs_to_goal this grid endNode k' neighbor (g + cost node neighbor)%float)
        (getNeighbors grid node (diagonalMovement this))
  end.

(** ** Example inputs *)

(** [g] after [k] more steps of cost [c]: [for (i = 0; i < k; i++) g += c]. *)
Fixpoint add_steps (k : nat) (c g : float) : float :=
  match k with
  | O => g
  | S k' => add_steps k' c (g + c)%float
  end.

(** A heuristic a caller may configure: the cost of the route that no
    obstacle hinders, its straight steps first and its diagonal steps after
    them, added up one step at a time as [search] adds costs. *)
Definition stepwise (dx dy : Z) : float :=
  add_steps (Z.to_nat (Z.min dx dy)) SQRT2
    (add_steps (Z.to_nat (Z.max dx dy - Z.min dx dy)) 1%float 0%float).

(** [new IDAStarFinder({diagonalMovement: DiagonalMovement.IfAtMostOneObstacle,
    heuristic: stepwise})] *)
Definition stepwiseFinder : Finder :=
  IDAStarFinder
    (mkOptions None None (Some IfAtMostOneObstacle) (Some stepwise) None None
       None).

(** Five by four cells, two of them blocked. *)
Definition bendGrid : Grid :=
  MatrixGrid.make
    [[true; true; true; true; true];
     [true; true; false; true; true];
     [true; false; true; true; true];
     [true; true; true; true; true]].

(** The walkable cells of [bendGrid]. *)
Definition bendCells : list Node :=
  List.filter
    (fun n => MatrixGrid.isWalkableAt
                [[true; true; true; true; true];
                 [true; true; false; true; true];
                 [true; false; true; true; true];
                 [true; true; true; true; true]] (x n) (y n))
    (flat_map (fun cy => map (fun cx => mkNode cx cy) [0; 1; 2; 3; 4])
       [0; 1; 2; 3]).

(** [new IDAStarFinder({diagonalMovement: DiagonalMovement.IfAtMostOneObstacle})] *)
Definition diagonalFinder : Finder :=
  IDAStarFinder
    (mkOptions None None (Some IfAtMostOneObstacle) None None None None).

End Binary64.
(** * The order of Z[√2]

    The comparison [zs2_ltb] is computed on integers; its laws are read off
    the real number a + b·√2 that a pair denotes. *)

Module ZS2Order.

Local Open Scope R_scope.

Lemma sqrt2_sqr : sqrt 2 * sqrt 2 = 2.
Proof. apply sqrt_sqrt; lra. Qed.

Lemma sqrt2_gt_1 : 1 < sqrt 2.
Proof.
  rewrite <- sqrt_1 at 1. apply sqrt_lt_1_alt; lra.
Qed.

Lemma toR_add u v : toR (zs2_add u v) = toR u + toR v.
Proof. unfold toR, zs2_add; cbn [rat irr]. rewrite !plus_IZR. ring. Qed.

Lemma toR_sub u v : toR (zs2_sub u v) = toR u - toR v.
Proof. unfold toR, zs2_sub; cbn [rat irr]. rewrite !minus_IZR. ring. Qed.

Lemma toR_mul u v : toR (zs2_mul u v) = toR u * toR v.
Proof.
  unfold toR, zs2_mul; cbn [rat irr].
  rewrite !plus_IZR, !mult_IZR.
  transitivity
    (IZR (rat u) * IZR (rat v)
     + IZR (irr u) * IZR (irr v) * (sqrt 2 * sqrt 2)
     + (IZR (rat u) * IZR (irr v) + IZR (irr u) * IZR (rat v)) * sqrt 2);
    [rewrite sqrt2_sqr|]; ring.
Qed.

Lemma toR_of_Z n : toR (zs2_of_Z n) = IZR n.
Proof. unfold toR, zs2_of_Z; cbn [rat irr]. ring. Qed.

Lemma toR_zero : toR zs2_zero = 0.
Proof. unfold toR, zs2_zero; cbn [rat irr]. ring. Qed.

Lemma toR_one : toR zs2_one = 1.
Proof. unfold toR, zs2_one; cbn [rat irr]. ring. Qed.

Lemma toR_SQRT2 : toR SQRT2 = sqrt 2.
Proof. unfold toR, SQRT2; cbn [rat irr]. ring. Qed.

Lemma square_lt p q : 0 <= p -> 0 <= q -> (p * p < q * q <-> p < q).
Proof.
  intros Hp Hq. split; intros Hlt.
  - destruct (Rlt_le_dec p q) as [|Hge]; [assumption|].
    pose proof (Rmult_le_compat q p q p Hq Hq Hge Hge). lra.
  - apply Rmult_le_0_lt_compat; assumption.
Qed.

Lemma zs2_pos_spec u : zs2_pos u = true <-> 0 < toR u.
Proof.
  destruct u as [a b]. unfold zs2_pos, toR; cbn [rat irr].
  pose proof sqrt2_sqr as Hs. pose proof sqrt2_gt_1 as Hs1.
  assert (Hsq : IZR b * sqrt 2 * (IZR b * sqrt 2) = 2 * (IZR b * IZR b)).
  { transitivity (IZR b * IZR b * (sqrt 2 * sqrt 2)); [|rewrite Hs]; ring. }
  assert (Hpos : (0 < b)%Z -> 0 < IZR b * sqrt 2).
  { intros Hb. apply IZR_lt in Hb. apply Rmult_lt_0_compat; lra. }
  assert (Hneg : (b < 0)%Z -> IZR b * sqrt 2 < 0).
  { intros Hb. apply IZR_lt in Hb.
    replace (IZR b * sqrt 2) with (- (- IZR b * sqrt 2)) by ring.
    apply Ropp_lt_gt_0_contravar, Rmult_lt_0_compat; lra. }
  assert (Hzero : b = 0%Z -> IZR b * sqrt 2 = 0).
  { intros ->. ring. }
  set (t := IZR b * sqrt 2) in *. clearbody t.
  assert (Hcmp1 : (2 * (b * b) <? a * a)%Z = true <-> t * t < IZR a * IZR a).
  { rewrite Z.ltb_lt, Hsq, <- !mult_IZR.
    split; [apply IZR_lt | apply lt_IZR]. }
  assert (Hcmp2 : (a * a <? 2 * (b * b))%Z = true <-> IZR a * IZR a < t * t).
  { rewrite Z.ltb_lt, Hsq, <- !mult_IZR.
    split; [apply IZR_lt | apply lt_IZR]. }
  destruct (Z.leb_spec 0 a) as [Ha|Ha]; destruct (Z.leb_spec 0 b) as [Hb|Hb];
    cbn [andb].
  - pose proof (IZR_le _ _ Ha) as HaR.
    destruct (Z.ltb_spec 0 a) as [Ha'|Ha']; cbn [orb].
    + pose proof (IZR_lt _ _ Ha') as HaR'.
      assert (0 <= t).
      { destruct (Z.eq_dec b 0%Z) as [Hb0|Hb0];
          [rewrite (Hzero Hb0); lra | apply Rlt_le, Hpos; lia]. }
      split; [intros _; lra | reflexivity].
    + assert (a = 0%Z) by lia; subst a.
      destruct (Z.ltb_spec 0 b) as [Hb'|Hb'].
      * specialize (Hpos Hb'). split; [intros _; lra | reflexivity].
      * rewrite Hzero by lia. split; [discriminate | lra].
  - specialize (Hneg Hb).
    destruct (Z.leb_spec a 0) as [Ha0|Ha0]; cbn [andb].
    + assert (a = 0%Z) by lia; subst a.
      destruct (Z.leb_spec b 0) as [_|Hb0]; [|lia].
      split; [discriminate | lra].
    + destruct (Z.ltb_spec 0 a) as [_|?]; [|lia].
      pose proof (IZR_lt _ _ Ha0) as HaR.
      rewrite Hcmp1.
      replace (t * t) with (- t * - t) by ring.
      rewrite square_lt by lra. lra.
  - pose proof (IZR_lt _ _ Ha) as HaR.
    destruct (Z.leb_spec a 0) as [Ha0|Ha0]; [|lia]. cbn [andb].
    destruct (Z.leb_spec b 0) as [Hb0|Hb0].
    + rewrite Hzero by lia. split; [discriminate | lra].
    + specialize (Hpos Hb0).
      destruct (Z.ltb_spec 0 a) as [?|_]; [lia|].
      rewrite Hcmp2.
      replace (IZR a * IZR a) with (- IZR a * - IZR a) by ring.
      rewrite square_lt by lra. lra.
  - specialize (Hneg Hb). pose proof (IZR_lt _ _ Ha) as HaR.
    destruct (Z.leb_spec a 0) as [_|?]; [|lia].
    destruct (Z.leb_spec b 0) as [_|?]; [|lia]. cbn [andb].
    split; [discriminate | lra].
Qed.

Lemma zs2_ltb_lt u v : zs2_ltb u v = true <-> toR u < toR v.
Proof.
  unfold zs2_ltb. rewrite zs2_pos_spec, toR_sub. lra.
Qed.

Lemma zs2_ltb_ge u v : zs2_ltb u v = false <-> toR v <= toR u.
Proof.
  pose proof (zs2_ltb_lt u v) as [H1 H2].
  destruct (zs2_ltb u v); split; intros H; try discriminate; try reflexivity.
  - specialize (H1 eq_refl). lra.
  - apply Rnot_lt_le. intros Hlt. apply H2 in Hlt. discriminate.
Qed.

End ZS2Order.

(** * The search, with and without its bookkeeping *)

Lemma fill_empty cs d :
  cs <> [] -> fill d cs [] = repeat None d ++ map Some cs.
Proof.
  revert d. induction cs as [|c rest IH]; intros d Hne; [done|].
  cbn [fill map]. destruct rest as [|c' rest'].
  - cbn [fill map]. clear. induction d as [|d IHd]; [done|].
    cbn [array_set repeat app]. by rewrite IHd.
  - rewrite IH by done. clear.
    generalize (map Some (c' :: rest')) as l. intros l.
    induction d as [|d IHd]; [done|].
    change (repeat None (S (S d))) with (@None (Z * Z) :: repeat None (S d)).
    cbn [array_set repeat app] in *. by rewrite IHd.
Qed.

Lemma fill_top p : fill 0 (map coord p) [] = route_of p.
Proof.
  unfold route_of. destruct p as [|n p]; [done|].
  rewrite fill_empty by done. cbn [repeat app]. by rewrite map_map.
Qed.

Section Refinement.

Variable this : Finder.
Variable grid : Grid.
Variable clock : nat -> Z.
Variable endNode : Node.
Hypothesis Hclock : never_expires this clock.

Lemma search_loop_refines call pcall node depth neighbors :
  (forall neighbor route st,
      refines endNode (S depth) route (call neighbor route st) (pcall neighbor)) ->
  forall min route st,
    refines endNode depth route
      (search_loop this call node depth neighbors min route st)
      (pure_loop pcall node neighbors min).
Proof.
  intros Hcall. induction neighbors as [|nb rest IH]; intros min route st;
    cbn [search_loop pure_loop].
  - cbn. eauto.
  - set (st1 := if trackRecursion this then _ else st).
    specialize (Hcall nb route st1).
    destruct (pcall nb) as [[t|p]|]; cbn [refines] in Hcall.
    + destruct Hcall as [st2 ->]. apply IH.
    + destruct Hcall as [st2 ->]. cbn. eauto.
    + by rewrite Hcall.
Qed.

Lemma search_refines fuel : forall node g cutoff route depth st,
  refines endNode depth route
    (search this grid clock (clock O) endNode fuel node g cutoff route depth st)
    (pure_search this grid endNode fuel node g cutoff).
Proof.
  induction fuel as [|fuel IH]; intros node g cutoff route depth st;
    cbn [search pure_search]; [done|].
  assert (Hno : forall st0 : State,
    (if limited this
     then (expired this (clock O) (clock (reads st0)), count_read st0)
     else (false, st0)) =
    (false, if limited this then count_read st0 else st0)).
  { intros st0. specialize (Hclock (reads st0)).
    destruct (limited this); [|done]. cbn in Hclock. by rewrite Hclock. }
  rewrite Hno. fold (hw this endNode node).
  destruct (zs2_ltb cutoff _); [cbn; eauto|].
  destruct (decide (node = endNode)) as [->|Hne]; [cbn; eauto|].
  apply search_loop_refines. intros nb route' st'. apply IH.
Qed.

Lemma sweeps_refines j fuel start : forall cutoff st,
  fst (sweeps this grid clock (clock O) endNode j fuel start cutoff st)
  = fst (pure_sweeps this grid endNode j fuel start cutoff) /\
  option_map fst
    (snd (sweeps this grid clock (clock O) endNode j fuel start cutoff st))
  = option_map route_of
      (snd (pure_sweeps this grid endNode j fuel start cutoff)).
Proof.
  induction j as [|j IH]; intros cutoff st; cbn [sweeps pure_sweeps]; [done|].
  pose proof (search_refines fuel start zs2_zero cutoff [] 0 st) as Href.
  destruct (pure_search this grid endNode fuel start zs2_zero cutoff)
    as [[[t|]|p]|]; cbn [refines] in Href.
  - destruct Href as [st' ->]. specialize (IH t st').
    destruct (sweeps _ _ _ _ _ j fuel start t st') as [cs r].
    destruct (pure_sweeps _ _ _ j fuel start t) as [cs' r'].
    cbn in *. destruct IH as [-> ->]. done.
  - destruct Href as [st' ->]. done.
  - destruct Href as [st' ->]. cbn. by rewrite fill_top.
  - by rewrite Href.
Qed.

End Refinement.

(** [findPath] in terms of the pure sweeps, when no time limit is hit. *)
Lemma findPath_pure fuel this clock startX startY endX endY grid s :
  never_expires this clock ->
  findPath fuel this clock startX startY endX endY grid s
  = option_map route_of
      (snd (pure_sweeps this grid (getNodeAt grid endX endY) fuel fuel
              (getNodeAt grid startX startY)
              (h this (getNodeAt grid startX startY) (getNodeAt grid endX endY)))).
Proof.
  intros Hclock. unfold findPath, findPath_run.
  apply sweeps_refines, Hclock.
Qed.

Lemma cutoffs_pure fuel this clock startX startY endX endY grid s :
  never_expires this clock ->
  cutoffs fuel this clock startX startY endX endY grid s
  = fst (pure_sweeps this grid (getNodeAt grid endX endY) fuel fuel
           (getNodeAt grid startX startY)
           (h this (getNodeAt grid startX startY) (getNodeAt grid endX endY))).
Proof.
  intros Hclock. unfold cutoffs, findPath_run.
  apply sweeps_refines, Hclock.
Qed.

(** * The model on the scenarios of the specification *)

(** A 5×5 obstacle-free grid, diagonal steps allowed: the path from (0,0) to
    (4,4) is the diagonal, found in the first sweep, of cost 4·√2. *)
Example open_grid_diagonal :
  findPath 5 diagonalFinder frozen 0 0 4 4 (MatrixGrid.open 5 5) ∅
  = Some [Some (0, 0); Some (1, 1); Some (2, 2); Some (3, 3); Some (4, 4)] /\
  cutoffs 5 diagonalFinder frozen 0 0 4 4 (MatrixGrid.open 5 5) ∅
  = [zs2_mul (zs2_of_Z 4) SQRT2] /\
  pathCost [mkNode 0 0; mkNode 1 1; mkNode 2 2; mkNode 3 3; mkNode 4 4]
  = zs2_mul (zs2_of_Z 4) SQRT2.
Proof. repeat split; vm_compute; reflexivity. Qed.

(** Without diagonal steps the same search needs no second sweep either. *)
Example open_grid_straight :
  findPath 5 plainFinder frozen 0 0 2 2 (MatrixGrid.open 3 3) ∅
  = Some [Some (0, 0); Some (1, 0); Some (2, 0); Some (2, 1); Some (2, 2)].
Proof. vm_compute. reflexivity. Qed.

(** A detour around a wall takes several sweeps with rising cut-offs. *)
Example detour_cutoffs :
  findPath 12 plainFinder frozen 0 0 2 0
    (MatrixGrid.make [[true; false; true]; [true; true; true]]) ∅
  = Some [Some (0, 0); Some (0, 1); Some (1, 1); Some (2, 1); Some (2, 0)] /\
  cutoffs 12 plainFinder frozen 0 0 2 0
    (MatrixGrid.make [[true; false; true]; [true; true; true]]) ∅
  = [zs2_of_Z 2; zs2_of_Z 4].
Proof. split; vm_compute; reflexivity. Qed.

(** * Order facts used below *)

Lemma zs2_ltb_irrefl u : zs2_ltb u u = false.
Proof. apply ZS2Order.zs2_ltb_ge. lra. Qed.

Lemma zs2_lt_le u v : zs2_lt u v -> zs2_le u v.
Proof.
  unfold zs2_lt, zs2_le. rewrite ZS2Order.zs2_ltb_lt, ZS2Order.zs2_ltb_ge. lra.
Qed.

(** * The cut-offs of successive sweeps *)

Section Cutoffs.

Variable this : Finder.
Variable grid : Grid.
Variable clock : nat -> Z.
Variable startTime : Z.
Variable endNode : Node.

Lemma search_loop_beyond cutoff call node depth neighbors :
  (forall nb route st t route' st',
      call nb route st = Some (Bound t, route', st') -> beyond cutoff t) ->
  forall min route st t route' st',
    beyond cutoff min ->
    search_loop this call node depth neighbors min route st
    = Some (Bound t, route', st') ->
    beyond cutoff t.
Proof.
  intros Hcall. induction neighbors as [|nb rest IH];
    intros min route st t route' st' Hmin; cbn [search_loop].
  - intros [= <- _ _]. exact Hmin.
  - destruct (call nb route _) as [[[[t1|n1] r1] s1]|] eqn:Hc; [|done|done].
    apply IH. apply Hcall in Hc. by destruct (num_ltb t1 min).
Qed.

Lemma search_beyond fuel : forall node g cutoff route depth st t route' st',
  search this grid clock startTime endNode fuel node g cutoff route depth st
  = Some (Bound t, route', st') ->
  beyond cutoff t.
Proof.
  induction fuel as [|fuel IH];
    intros node g cutoff route depth st t route' st'; cbn [search]; [done|].
  destruct (if limited this then _ else _) as [[|] st1].
  { intros [= <- _ _]. exact I. }
  destruct (zs2_ltb cutoff _) eqn:Hf.
  { intros [= <- _ _]. exact Hf. }
  destruct (decide (node = endNode)); [done|].
  apply search_loop_beyond; [|exact I].
  intros nb r s t1 r1 s1. apply IH.
Qed.

Lemma sweeps_head j fuel start cutoff st :
  hd_error
    (fst (sweeps this grid clock startTime endNode (S j) fuel start cutoff st))
  = Some cutoff.
Proof.
  cbn [sweeps].
  destruct (search _ _ _ _ _ _ _ _ _ _ _ _) as [[[[[t|]|n] r] s]|]; try done.
  by destruct (sweeps _ _ _ _ _ j fuel start t s).
Qed.

Lemma sweeps_sorted j fuel start : forall cutoff st,
  Sorted zs2_lt
    (fst (sweeps this grid clock startTime endNode j fuel start cutoff st)).
Proof.
  induction j as [|j IH]; intros cutoff st; [constructor|].
  cbn [sweeps].
  destruct (search _ _ _ _ _ _ _ _ _ _ _ _) as [[[[[t|]|n] r] s]|] eqn:Hs;
    try (repeat constructor).
  apply search_beyond in Hs. cbn in Hs.
  specialize (IH t s).
  destruct j as [|j]; [cbn; repeat constructor|].
  pose proof (sweeps_head j fuel start t s) as Hhd.
  destruct (sweeps _ _ _ _ _ (S j) fuel start t s) as [cs res].
  cbn [fst] in *. constructor; [exact IH|].
  destruct cs as [|c cs]; [constructor|].
  injection Hhd as ->. by constructor.
Qed.

End Cutoffs.

Lemma Sorted_weaken {A} (R1 R2 : A -> A -> Prop) l :
  (forall a b, R1 a b -> R2 a b) -> Sorted R1 l -> Sorted R2 l.
Proof.
  intros Himp. induction 1 as [|a l Hs IH Hhd]; constructor; [done|].
  destruct Hhd; constructor; auto.
Qed.

(** C7.  Within one call of findPath the cut-offs of successive sweeps never
    decrease: each new cut-off is strictly above the one before, hence at
    least as large. *)
Theorem cutoffs_nondecreasing fuel this clock startX startY endX endY grid s :
  Sorted zs2_lt (cutoffs fuel this clock startX startY endX endY grid s) /\
  Sorted zs2_le (cutoffs fuel this clock startX startY endX endY grid s).
Proof.
  assert (Hlt : Sorted zs2_lt
            (cutoffs fuel this clock startX startY endX endY grid s))
    by apply sweeps_sorted.
  split; [exact Hlt|].
  eapply Sorted_weaken; [apply zs2_lt_le | exact Hlt].
Qed.

(** C2, as the code has it.  The first sweep of every findPath call runs with
    the cut-off heuristic(start, goal), not multiplied by the weight. *)
Theorem initial_cutoff_unweighted fuel this clock startX startY endX endY grid s :
  hd_error (cutoffs (S fuel) this clock startX startY endX endY grid s)
  = Some (h this (getNodeAt grid startX startY) (getNodeAt grid endX endY)).
Proof. apply sweeps_head. Qed.

(** C2 as stated fails: with weight 2 on two adjacent cells the first
    cut-off is 1, while heuristic(start, goal) × weight is 2. *)
Lemma initial_cutoff_weighted_fails :
  hd_error (cutoffs 1 weightedFinder frozen 0 0 1 0 pairGrid ∅)
  <> Some (zs2_mul
             (h weightedFinder (getNodeAt pairGrid 0 0) (getNodeAt pairGrid 1 0))
             (weight weightedFinder)).
Proof. vm_compute. discriminate. Qed.

(** * Start equal to goal *)

Lemma never_expires_default (clock : nat -> Z) opt :
  opt_timeLimit opt = None -> never_expires (IDAStarFinder opt) clock.
Proof. intros Hopt k. unfold limited, expired. cbn. by rewrite Hopt. Qed.



(** * Recursion tracking does not influence the result *)

Lemma pure_loop_ext call1 call2 node neighbors :
  (forall nb, call1 nb = call2 nb) ->
  forall min, pure_loop call1 node neighbors min
              = pure_loop call2 node neighbors min.
Proof.
  intros Hcall. induction neighbors as [|nb rest IH]; intros min; [done|].
  cbn [pure_loop]. rewrite Hcall.
  destruct (call2 nb) as [[t|p]|]; auto.
Qed.

Lemma pure_search_tracking b this grid endNode fuel : forall node g cutoff,
  pure_search (setTrackRecursion b this) grid endNode fuel node g cutoff
  = pure_search this grid endNode fuel node g cutoff.
Proof.
  induction fuel as [|fuel IH]; intros node g cutoff; [done|].
  cbn [pure_search].
  change (hw (setTrackRecursion b this) endNode node) with (hw this endNode node).
  destruct (zs2_ltb cutoff _); [done|].
  destruct (decide (node = endNode)); [done|].
  apply pure_loop_ext. intros nb. apply IH.
Qed.

Lemma pure_sweeps_tracking b this grid endNode j fuel start : forall cutoff,
  pure_sweeps (setTrackRecursion b this) grid endNode j fuel start cutoff
  = pure_sweeps this grid endNode j fuel start cutoff.
Proof.
  induction j as [|j IH]; intros cutoff; [done|].
  cbn [pure_sweeps]. rewrite pure_search_tracking.
  destruct (pure_search this grid endNode fuel start zs2_zero cutoff)
    as [[[t|]|p]|]; try done.
Qed.

(** C9.  With no time limit hit, a call with recursion tracking enabled
    returns exactly the path that the same call returns with tracking
    disabled, whatever the node fields held before and whatever the clock
    showed in either run. *)
Theorem tracking_noninterference fuel this clock1 clock2
    startX startY endX endY grid s1 s2 :
  never_expires this clock1 ->
  never_expires this clock2 ->
  findPath fuel (setTrackRecursion true this) clock1
    startX startY endX endY grid s1
  = findPath fuel (setTrackRecursion false this) clock2
      startX startY endX endY grid s2.
Proof.
  intros H1 H2.
  rewrite !findPath_pure by done.
  change (h (setTrackRecursion true this)) with (h this).
  change (h (setTrackRecursion false this)) with (h this).
  by rewrite !pure_sweeps_tracking.
Qed.

Lemma tracking_noninterference_witness :
  findPath 8 (setTrackRecursion true plainFinder) frozen 0 0 2 2
    (MatrixGrid.open 3 3) ∅
  = findPath 8 (setTrackRecursion false plainFinder) lateClock 0 0 2 2
      (MatrixGrid.open 3 3) (retain (mkNode 1 1) ∅).
Proof.
  apply (tracking_noninterference 8 plainFinder frozen lateClock).
  - intros k. reflexivity.
  - intros k. reflexivity.
Defined.

(** * Recursion tracking on a successful search *)

(** C1 fails on success: on two adjacent cells, with tracking enabled and
    every node at rest beforehand, the call returns the path and leaves the
    goal node with an active depth count of 1 and still marked as being
    visited. *)
Theorem tracking_left_on_success :
  findPath 2 trackingFinder frozen 0 0 1 0 pairGrid ∅
  = Some [Some (0, 0); Some (1, 0)] /\
  exists s',
    findPath_store 2 trackingFinder frozen 0 0 1 0 pairGrid ∅ = Some s' /\
    info s' (mkNode 1 0) = mkInfo (Some 1) (Some true) /\
    ~ at_rest (info s' (mkNode 1 0)).
Proof.
  split; [vm_compute; reflexivity|].
  eexists. split; [vm_compute; reflexivity|].
  split; [vm_compute; reflexivity|].
  intros [[Hcount|Hcount] _]; vm_compute in Hcount; discriminate Hcount.
Qed.

(** * An unreachable goal *)

Lemma walled_search fuel : forall n g cutoff,
  n = mkNode 0 0 \/ n = mkNode 1 0 ->
  match pure_search plainFinder walledGrid (mkNode 3 0) fuel n g cutoff with
  | None | Some (PBound (Fin _)) => True
  | _ => False
  end.
Proof.
  induction fuel as [|fuel IH]; intros n g cutoff Hn; [done|].
  cbn [pure_search].
  destruct (zs2_ltb cutoff _); [done|].
  destruct (decide (n = mkNode 3 0)) as [->|_];
    [by destruct Hn|].
  assert (Hnb : exists m, (m = mkNode 0 0 \/ m = mkNode 1 0) /\
    getNeighbors walledGrid n (diagonalMovement plainFinder) = [m]).
  { destruct Hn as [-> | ->]; eexists; (split; [|reflexivity]); auto. }
  destruct Hnb as (m & Hm & ->). cbn [pure_loop].
  specialize (IH m (zs2_add g (cost n m)) cutoff Hm).
  destruct (pure_search _ _ _ fuel m _ cutoff) as [[[b|]|p]|]; done.
Qed.

Lemma walled_sweeps j fuel : forall cutoff,
  snd (pure_sweeps plainFinder walledGrid (mkNode 3 0) j fuel (mkNode 0 0) cutoff)
  = None.
Proof.
  induction j as [|j IH]; intros cutoff; [done|].
  cbn [pure_sweeps].
  pose proof (walled_search fuel (mkNode 0 0) zs2_zero cutoff (or_introl eq_refl))
    as Hs.
  destruct (pure_search _ _ _ fuel _ _ cutoff) as [[[b|]|p]|]; try done.
  specialize (IH b).
  by destruct (pure_sweeps _ _ _ j fuel _ b).
Qed.

(** C5 fails on the code: in a corridor whose third cell is blocked, the
    search from the first cell for the fourth never returns, whatever fuel
    it is given; every sweep ends with a finite bound and the next begins. *)
Theorem unreachable_goal_never_returns fuel :
  findPath fuel plainFinder frozen 0 0 3 0 walledGrid ∅ = None.
Proof.
  rewrite findPath_pure by (intros k; reflexivity).
  change (getNodeAt walledGrid 3 0) with (mkNode 3 0).
  change (getNodeAt walledGrid 0 0) with (mkNode 0 0).
  by rewrite walled_sweeps.
Qed.

(** The one unreachable case the code does detect: a start without any
    neighbour. *)
Lemma isolated_start_empty fuel this clock startX startY endX endY grid s :
  never_expires this clock ->
  getNodeAt grid startX startY <> getNodeAt grid endX endY ->
  getNeighbors grid (getNodeAt grid startX startY) (diagonalMovement this) = [] ->
  findPath (S (S fuel)) this clock startX startY endX endY grid s = Some [].
Proof.
  intros Hclock Hne Hnone. rewrite findPath_pure by done.
  set (start := getNodeAt grid startX startY) in *.
  set (goal := getNodeAt grid endX endY) in *.
  assert (Hdead : forall k cutoff,
    zs2_ltb cutoff (zs2_add zs2_zero (hw this goal start)) = false ->
    pure_search this grid goal (S k) start zs2_zero cutoff
    = Some (PBound Infinity)).
  { intros k cutoff Hle. cbn [pure_search]. rewrite Hle.
    destruct (decide (start = goal)); [done|]. by rewrite Hnone. }
  destruct (zs2_ltb (h this start goal)
              (zs2_add zs2_zero (hw this goal start))) eqn:Hf.
  - assert (Hmiss :
      pure_search this grid goal (S (S fuel)) start zs2_zero (h this start goal)
      = Some (PBound (Fin (zs2_add zs2_zero (hw this goal start))))).
    { cbn [pure_search]. by rewrite Hf. }
    cbn [pure_sweeps]. rewrite Hmiss.
    by rewrite Hdead by apply zs2_ltb_irrefl.
  - cbn [pure_sweeps]. by rewrite Hdead.
Qed.

(** * Recursion tracking on a search that fails

    Every frame that returns a bound has released what it retained; only a
    frame that returns the goal leaves its neighbour retained. *)

Lemma info_insert s n m i :
  info (<[coord n := i]> s) m = if decide (coord n = coord m) then i else info s m.
Proof.
  unfold info. destruct (decide (coord n = coord m)) as [->|Hne].
  - by rewrite lookup_insert_eq.
  - by rewrite lookup_insert_ne.
Qed.

Lemma release_retain s s1 nb :
  (forall n, consistent (info s n)) ->
  same_activity (retain nb s) s1 ->
  same_activity s (release nb s1).
Proof.
  intros Hwf Hsame n. specialize (Hsame n).
  unfold retain in Hsame. rewrite info_insert in Hsame.
  unfold release.
  destruct (Hwf nb) as [Hpos Htest]. unfold activity in Hpos, Htest, Hsame.
  cbn [fst snd] in *.
  destruct (decide (coord nb = coord n)) as [Heq|Hne].
  - assert (Hinfo : info s n = info s nb) by (unfold info; by rewrite Heq).
    assert (Hinfo1 : info s1 n = info s1 nb) by (unfold info; by rewrite Heq).
    rewrite Hinfo1 in Hsame. rewrite Hinfo.
    set (c := default 0 (retainCount (info s nb))) in *.
    assert (Hc : (match retainCount (info s nb) with
                  | Some c => if c + 1 =? 0 then 1 else c + 1
                  | None => 1
                  end) = c + 1).
    { subst c. destruct (retainCount (info s nb)) as [c|]; [|done]. cbn in *.
      destruct (Z.eqb_spec (c + 1) 0); [lia|done]. }
    rewrite Hc in Hsame. cbn [activity retainCount tested default] in Hsame.
    injection Hsame as Hcount Htested.
    destruct (retainCount (info s1 nb)) as [c1|] eqn:Hrc; cbn in Hcount; [|lia].
    subst c1. rewrite info_insert, decide_True by done.
    unfold activity. cbn [retainCount tested default].
    replace (c + 1 - 1) with c by lia. f_equal.
    destruct (Z.eqb_spec c 0) as [Hz|Hnz].
    + assert (bool_decide (tested (info s nb) = Some true) = false) as ->.
      { apply not_true_is_false. intros E. apply Htest in E. lia. }
      symmetry. by apply bool_decide_eq_false_2.
    + rewrite <- Htested. apply Htest. lia.
  - transitivity (activity (info s1 n)); [exact Hsame|].
    destruct (retainCount (info s1 nb)); [|done].
    by rewrite info_insert, decide_False by done.
Qed.

Lemma same_activity_consistent s s' :
  same_activity s s' ->
  (forall n, consistent (info s n)) -> forall n, consistent (info s' n).
Proof. intros Hsame Hwf n. unfold consistent. rewrite <- Hsame. apply Hwf. Qed.

Lemma retain_consistent s nb :
  (forall n, consistent (info s n)) -> forall n, consistent (info (retain nb s) n).
Proof.
  intros Hwf n. unfold retain. rewrite info_insert.
  destruct (decide (coord nb = coord n)); [|apply Hwf].
  destruct (Hwf nb) as [Hpos _]. unfold consistent, activity in *.
  cbn [fst snd retainCount tested default] in *.
  destruct (retainCount (info s nb)) as [c|]; cbn in *.
  - destruct (Z.eqb_spec (c + 1) 0); [lia|].
    rewrite bool_decide_eq_true_2 by done. split; [lia|]. split; [lia|done].
  - rewrite bool_decide_eq_true_2 by done. split; [lia|]. split; [lia|done].
Qed.

Section Unwinding.

Variable this : Finder.
Variable grid : Grid.
Variable clock : nat -> Z.
Variable startTime : Z.
Variable endNode : Node.

Lemma search_loop_unwinds call node depth neighbors :
  (forall nb route st t route' st',
     (forall n, consistent (info (store st) n)) ->
     call nb route st = Some (Bound t, route', st') ->
     same_activity (store st) (store st')) ->
  forall min route st t route' st',
    (forall n, consistent (info (store st) n)) ->
    search_loop this call node depth neighbors min route st
    = Some (Bound t, route', st') ->
    same_activity (store st) (store st').
Proof.
  intros Hcall. induction neighbors as [|nb rest IH];
    intros min route st t route' st' Hwf; cbn [search_loop].
  - by intros [= _ _ <-].
  - destruct (trackRecursion this) eqn:Htrack.
    + destruct (call nb route _) as [[[[t1|n1] r1] s1]|] eqn:Hc; [|done|done].
      apply Hcall in Hc; [|by apply retain_consistent].
      cbn [on_store store] in Hc. apply release_retain in Hc; [|done].
      intros Hloop. apply IH in Hloop.
      * cbn [on_store store] in Hloop. intros n. by rewrite Hc, Hloop.
      * cbn [on_store store]. by eapply same_activity_consistent.
    + destruct (call nb route _) as [[[[t1|n1] r1] s1]|] eqn:Hc; [|done|done].
      apply Hcall in Hc; [|done].
      intros Hloop. apply IH in Hloop.
      * intros n. by rewrite Hc, Hloop.
      * by eapply same_activity_consistent.
Qed.

Lemma search_unwinds fuel : forall node g cutoff route depth st t route' st',
  (forall n, consistent (info (store st) n)) ->
  search this grid clock startTime endNode fuel node g cutoff route depth st
  = Some (Bound t, route', st') ->
  same_activity (store st) (store st').
Proof.
  induction fuel as [|fuel IH];
    intros node g cutoff route depth st t route' st' Hwf; cbn [search]; [done|].
  destruct (limited this).
  - cbn [count_visit reads]. destruct (expired _ _ _).
    { by intros [= _ _ <-]. }
    destruct (zs2_ltb cutoff _). { by intros [= _ _ <-]. }
    destruct (decide (node = endNode)); [done|].
    intros Hloop. eapply search_loop_unwinds in Hloop; [done| |done].
    intros nb r s t1 r1 s1. apply IH.
  - destruct (zs2_ltb cutoff _). { by intros [= _ _ <-]. }
    destruct (decide (node = endNode)); [done|].
    intros Hloop. eapply search_loop_unwinds in Hloop; [done| |done].
    intros nb r s t1 r1 s1. apply IH.
Qed.

Lemma array_set_nonempty {A} i (v : A) a : array_set i v a <> [].
Proof. by destruct i, a. Qed.

Lemma search_loop_found_route call node depth neighbors :
  forall min route st t route' st',
    search_loop this call node depth neighbors min route st
    = Some (Found t, route', st') ->
    route' <> [].
Proof.
  induction neighbors as [|nb rest IH]; intros min route st t route' st';
    cbn [search_loop]; [done|].
  destruct (call nb route _) as [[[[t1|n1] r1] s1]|]; [| |done].
  - apply IH.
  - intros [= _ <- _]. apply array_set_nonempty.
Qed.

Lemma search_found_route fuel node g cutoff route depth st t route' st' :
  search this grid clock startTime endNode fuel node g cutoff route depth st
  = Some (Found t, route', st') ->
  route' <> [].
Proof.
  destruct fuel as [|fuel]; cbn [search]; [done|].
  destruct (if limited this then _ else _) as [[|] st1]; [done|].
  destruct (zs2_ltb cutoff _); [done|].
  destruct (decide (node = endNode)).
  - intros [= _ <- _]. apply array_set_nonempty.
  - apply search_loop_found_route.
Qed.

Lemma sweeps_unwind j fuel start : forall cutoff st cs st',
  (forall n, consistent (info (store st) n)) ->
  sweeps this grid clock startTime endNode j fuel start cutoff st
  = (cs, Some ([], st')) ->
  same_activity (store st) (store st').
Proof.
  induction j as [|j IH]; intros cutoff st cs st' Hwf; cbn [sweeps]; [done|].
  destruct (search _ _ _ _ _ _ _ _ _ _ _ _) as [[[[[t|]|n] r] s]|] eqn:Hs.
  - apply search_unwinds in Hs; [|done].
    specialize (IH t s).
    destruct (sweeps _ _ _ _ _ j fuel start t s) as [cs' res].
    intros [= _ ->]. intros n. rewrite Hs. eapply IH; [|done].
    by eapply same_activity_consistent.
  - apply search_unwinds in Hs; [|done]. by intros [= _ <-].
  - apply search_found_route in Hs. by intros [= _ -> _].
  - done.
Qed.

End Unwinding.

Lemma at_rest_activity i : at_rest i <-> activity i = (0, false).
Proof.
  unfold at_rest, activity.
  destruct i as [[c|] [[|]|]]; cbn; split;
    try (intros [[?|?] [?|?]]; by simplify_eq);
    try (intros [= ?]; subst; by auto);
    try (intros [= ?]; done); try done; auto.
Qed.

(** The part of C1 that holds: a call that returns the empty path, by
    exhaustion or by timeout, leaves every node at rest if it found every
    node at rest. *)
Lemma tracking_unwound_on_failure fuel this clock startX startY endX endY
    grid s cs st' :
  (forall n, at_rest (info s n)) ->
  findPath_run fuel this clock startX startY endX endY grid s
  = (cs, Some ([], st')) ->
  forall n, at_rest (info (store st') n).
Proof.
  intros Hrest Hrun n. unfold findPath_run in Hrun.
  apply sweeps_unwind in Hrun.
  - apply at_rest_activity. rewrite <- Hrun. by apply at_rest_activity.
  - intros m. cbn [store]. specialize (Hrest m).
    apply at_rest_activity in Hrest. unfold consistent. rewrite Hrest.
    cbn. split; [lia|]. split; [done|lia].
Qed.

(** * The time limit *)

Section Timeout.

Variable this : Finder.
Variable grid : Grid.
Variable clock : nat -> Z.
Variable endNode : Node.

(** From its [k0]-th reading on, the clock is past the limit. *)
Variable k0 : nat.
Hypothesis Hlimited : limited this = true.
Hypothesis Hlate : forall k, (k0 <= k)%nat ->
  expired this (clock O) (clock k) = true.

Lemma search_late fuel node g cutoff route depth st :
  (k0 <= reads st)%nat ->
  search this grid clock (clock O) endNode (S fuel) node g cutoff route depth st
  = Some (Bound Infinity, route, count_read (count_visit st)).
Proof.
  intros Hk. cbn [search]. rewrite Hlimited.
  cbn [count_visit reads]. by rewrite (Hlate _ Hk).
Qed.

Lemma search_loop_late call node depth neighbors :
  (forall nb route st, (k0 <= reads st)%nat ->
     exists st', call nb route st = Some (Bound Infinity, route, st') /\
                 (k0 <= reads st')%nat) ->
  forall min route st, (k0 <= reads st)%nat ->
    exists st',
      search_loop this call node depth neighbors min route st
      = Some (Bound min, route, st') /\ (k0 <= reads st')%nat.
Proof.
  intros Hcall. induction neighbors as [|nb rest IH]; intros min route st Hk;
    cbn [search_loop]; [eauto|].
  set (st1 := if trackRecursion this then _ else st).
  assert (Hk1 : (k0 <= reads st1)%nat) by (subst st1; by destruct (trackRecursion this)).
  destruct (Hcall nb route st1 Hk1) as (st2 & -> & Hk2).
  replace (if num_ltb Infinity min then Infinity else min) with min
    by (by destruct min).
  apply IH. by destruct (trackRecursion this).
Qed.

Lemma sweeps_late j fuel start cutoff st :
  (k0 <= reads st)%nat ->
  sweeps this grid clock (clock O) endNode (S j) (S fuel) start cutoff st
  = ([cutoff], Some ([], count_read (count_visit st))).
Proof.
  intros Hk. cbn [sweeps]. by rewrite search_late.
Qed.

Lemma search_loop_found_early call node depth neighbors :
  (forall nb route st t route' st',
     call nb route st = Some (Found t, route', st') -> (reads st' <= k0)%nat) ->
  forall min route st t route' st',
    search_loop this call node depth neighbors min route st
    = Some (Found t, route', st') ->
    (reads st' <= k0)%nat.
Proof.
  intros Hcall. induction neighbors as [|nb rest IH];
    intros min route st t route' st'; cbn [search_loop]; [done|].
  destruct (call nb route _) as [[[[t1|n1] r1] s1]|] eqn:Hc; [| |done].
  - apply IH.
  - intros [= _ _ <-]. by apply Hcall in Hc.
Qed.

(** A search that finds the goal took all its clock readings before [k0]. *)
Lemma search_found_early fuel : forall node g cutoff route depth st t route' st',
  search this grid clock (clock O) endNode fuel node g cutoff route depth st
  = Some (Found t, route', st') ->
  (reads st' <= k0)%nat.
Proof.
  induction fuel as [|fuel IH];
    intros node g cutoff route depth st t route' st'; [done|].
  destruct (le_lt_dec k0 (reads st)) as [Hk|Hk].
  { by rewrite search_late. }
  cbn [search]. rewrite Hlimited. cbn [count_visit reads].
  destruct (expired this (clock O) (clock (reads st))); [done|].
  destruct (zs2_ltb cutoff _); [done|].
  destruct (decide (node = endNode)).
  { intros [= _ _ <-]. cbn. lia. }
  apply search_loop_found_early. intros nb r s t1 r1 s1. apply IH.
Qed.

(** A call that read the clock at or after [k0] returned the empty path. *)
Lemma sweeps_late_empty j fuel start : forall cutoff st cs route st',
  sweeps this grid clock (clock O) endNode j fuel start cutoff st
  = (cs, Some (route, st')) ->
  (k0 < reads st')%nat ->
  route = [].
Proof.
  induction j as [|j IH]; intros cutoff st cs route st'; cbn [sweeps]; [done|].
  destruct (search _ _ _ _ _ _ _ _ _ _ _ _) as [[[[[t|]|n] r] s]|] eqn:Hs.
  - specialize (IH t s).
    destruct (sweeps _ _ _ _ _ j fuel start t s) as [cs' res].
    intros [= _ ->]. by eapply IH.
  - by intros [= _ <- _].
  - intros [= _ _ <-] Hk. apply search_found_early in Hs. lia.
  - done.
Qed.

End Timeout.

(** A configured time limit that is not positive switches the check off. *)
Lemma nonpositive_limit_never_expires opt t clock :
  opt_timeLimit opt = Some t ->
  num_ltb (Fin zs2_zero) t = false ->
  never_expires (IDAStarFinder opt) clock.
Proof.
  intros Hopt Ht k. unfold limited, expired. cbn [IDAStarFinder timeLimit].
  rewrite Hopt. destruct t as [v|]; [|done].
  cbn [num_truthy]. destruct (zs2_truthy v); [|done].
  by rewrite Ht.
Qed.



(** * The search without bookkeeping: what it returns *)

Lemma cost_ge_1 a b : (1 <= toR (cost a b))%R.
Proof.
  unfold cost. destruct (_ || _).
  - rewrite ZS2Order.toR_one. lra.
  - rewrite ZS2Order.toR_SQRT2. pose proof ZS2Order.sqrt2_gt_1. lra.
Qed.

Lemma cost_coefficients a b : 0 <= rat (cost a b) /\ 0 <= irr (cost a b).
Proof. unfold cost. destruct (_ || _); cbn; lia. Qed.

Lemma pathCost_step a b rest :
  pathCost (a :: b :: rest) = zs2_add (cost a b) (pathCost (b :: rest)).
Proof. reflexivity. Qed.

Lemma low_min M t min :
  low M t \/ low M min -> low M (if num_ltb t min then t else min).
Proof.
  intros [(b & -> & Hb) | (b & -> & Hb)].
  - destruct min as [m|]; cbn; [|by exists b].
    destruct (zs2_ltb b m) eqn:Hlt; [by exists b|].
    apply ZS2Order.zs2_ltb_ge in Hlt. exists m. split; [done|lra].
  - destruct t as [v|]; cbn; [|by exists b].
    destruct (zs2_ltb v b) eqn:Hlt; [|by exists b].
    apply ZS2Order.zs2_ltb_lt in Hlt. exists v. split; [done|lra].
Qed.

Section PureSearch.

Variable this : Finder.
Variable grid : Grid.
Variable endNode : Node.

Local Abbreviation nbrs n := (getNeighbors grid n (diagonalMovement this)).
Local Abbreviation psearch := (pure_search this grid endNode).
Local Abbreviation hwt := (hw this endNode).
Local Abbreviation pwalk := (walk this grid endNode).

Lemma walk_head n p : pwalk n p -> exists rest, p = n :: rest.
Proof. destruct 1; eauto. Qed.

Lemma pure_loop_found call node neighbors : forall min p,
  pure_loop call node neighbors min = Some (PFound p) ->
  exists nb p', In nb neighbors /\ call nb = Some (PFound p') /\ p = node :: p'.
Proof.
  induction neighbors as [|nb rest IH]; intros min p; cbn [pure_loop]; [done|].
  destruct (call nb) as [[t|p1]|] eqn:Hc; [| |done].
  - intros H. apply IH in H as (nb' & p' & Hin & Hc' & ->).
    exists nb', p'. split_and!; [by right|done|done].
  - intros [= <-]. exists nb, p1. split_and!; [by left|done|done].
Qed.

Lemma pure_loop_bound (P : num -> Prop) call node neighbors :
  (forall nb t, In nb neighbors -> call nb = Some (PBound t) -> P t) ->
  forall min t,
    P min ->
    pure_loop call node neighbors min = Some (PBound t) ->
    P t.
Proof.
  induction neighbors as [|nb rest IH]; intros Hcall min t Hmin;
    cbn [pure_loop].
  - by intros [= <-].
  - destruct (call nb) as [[t1|p1]|] eqn:Hc; [|done|done].
    apply IH.
    + intros nb' t' Hin. apply Hcall. by right.
    + destruct (num_ltb t1 min); [|done]. eapply Hcall; [by left|done].
Qed.

Lemma pure_loop_total call node neighbors :
  (forall nb, In nb neighbors -> call nb <> None) ->
  forall min, pure_loop call node neighbors min <> None.
Proof.
  induction neighbors as [|nb rest IH]; intros Hcall min; cbn [pure_loop];
    [done|].
  pose proof (Hcall nb (or_introl eq_refl)) as Hnb.
  destruct (call nb) as [[t|p]|]; [|done|done].
  apply IH. intros nb' Hin. apply Hcall. by right.
Qed.

(** Whatever the loop returns is low as soon as one neighbour's call is. *)
Lemma pure_loop_low M call node neighbors m :
  (forall r, call m = Some r ->
     match r with PFound _ => True | PBound t => low M t end) ->
  forall min r,
    In m neighbors \/ low M min ->
    pure_loop call node neighbors min = Some r ->
    match r with PFound _ => True | PBound t => low M t end.
Proof.
  intros Hm. induction neighbors as [|nb rest IH]; intros min r Hin;
    cbn [pure_loop].
  - intros [= <-]. by destruct Hin.
  - destruct (call nb) as [[t1|p1]|] eqn:Hc; [| |done].
    + apply IH.
      destruct Hin as [[->|Hin]|Hmin]; [|by left|].
      * right. apply low_min. left. by apply (Hm _ Hc).
      * right. apply low_min. by right.
    + by intros [= <-].
Qed.

(** A bound that comes back lies above the cut-off. *)
Lemma pure_search_beyond fuel : forall node g cutoff t,
  psearch fuel node g cutoff = Some (PBound t) -> beyond cutoff t.
Proof.
  induction fuel as [|fuel IH]; intros node g cutoff t; cbn [pure_search];
    [done|].
  destruct (zs2_ltb cutoff _) eqn:Hf.
  { intros [= <-]. exact Hf. }
  destruct (decide (node = endNode)); [done|].
  apply pure_loop_bound; [|exact I].
  intros nb t' _. apply IH.
Qed.

(** A path that comes back leads from the node to the goal, and its cost
    fits under the cut-off. *)
Lemma pure_search_found fuel : forall node g cutoff p,
  psearch fuel node g cutoff = Some (PFound p) ->
  pwalk node p /\
  (toR g + toR (pathCost p) + toR (hwt endNode) <= toR cutoff)%R.
Proof.
  induction fuel as [|fuel IH]; intros node g cutoff p; cbn [pure_search];
    [done|].
  destruct (zs2_ltb cutoff _) eqn:Hf; [done|].
  apply ZS2Order.zs2_ltb_ge in Hf. rewrite ZS2Order.toR_add in Hf.
  destruct (decide (node = endNode)) as [->|Hne].
  - intros [= <-]. split; [constructor|].
    cbn [pathCost]. rewrite ZS2Order.toR_zero. lra.
  - intros Hloop.
    apply pure_loop_found in Hloop as (nb & p' & Hin & Hcall & ->).
    apply IH in Hcall as [Hwalk Hcost].
    split; [by econstructor|].
    destruct (walk_head _ _ Hwalk) as [rest ->].
    rewrite pathCost_step, ZS2Order.toR_add in *. lra.
Qed.

(** If some path to the goal keeps f at or below [M], the call does not
    come back with a bound above [M]: it finds the goal or reports a finite
    bound of at most [M]. *)
Lemma pure_search_low M node q :
  pwalk node q ->
  forall fuel g cutoff r,
    f_below this endNode M g q ->
    psearch fuel node g cutoff = Some r ->
    match r with PFound _ => True | PBound t => low M t end.
Proof.
  induction 1 as [|n m p Hin Hwalk IH]; intros fuel g cutoff r Hq;
    (destruct fuel as [|fuel]; [done|]); cbn [pure_search].
  - destruct Hq as [Hq _].
    destruct (zs2_ltb cutoff _).
    + intros [= <-]. eexists; split; [done|].
      rewrite ZS2Order.toR_add. exact Hq.
    + destruct (decide (endNode = endNode)); [|done]. by intros [= <-].
  - destruct (walk_head _ _ Hwalk) as [rest ->].
    destruct Hq as [Hn Hq].
    destruct (zs2_ltb cutoff _).
    { intros [= <-]. eexists; split; [done|].
      rewrite ZS2Order.toR_add. exact Hn. }
    destruct (decide (n = endNode)); [by intros [= <-]|].
    apply (pure_loop_low M _ n (nbrs n) m); [|by left].
    intros r'. by apply IH.
Qed.

End PureSearch.

(** * The search without bookkeeping: that it returns *)

Lemma pure_search_unfold this grid endNode fuel node g cutoff :
  pure_search this grid endNode (S fuel) node g cutoff
  = if zs2_ltb cutoff (zs2_add g (hw this endNode node))
    then Some (PBound (Fin (zs2_add g (hw this endNode node))))
    else if decide (node = endNode) then Some (PFound [node])
    else
      pure_loop
        (fun neighbor =>
           pure_search this grid endNode fuel neighbor
             (zs2_add g (cost node neighbor)) cutoff)
        node (getNeighbors grid node (diagonalMovement this)) Infinity.
Proof. reflexivity. Qed.

Lemma filter_length_mono {A} (p q : A -> bool) l :
  (forall a, p a = true -> q a = true) ->
  (length (List.filter p l) <= length (List.filter q l))%nat.
Proof.
  intros Hpq. induction l as [|a l IH]; [done|]. cbn [List.filter].
  destruct (p a) eqn:Hp.
  - rewrite (Hpq _ Hp). cbn [length]. lia.
  - destruct (q a); cbn [length]; lia.
Qed.

Lemma filter_length_lt {A} (p q : A -> bool) l a :
  (forall a, p a = true -> q a = true) ->
  In a l -> q a = true -> p a = false ->
  (length (List.filter p l) < length (List.filter q l))%nat.
Proof.
  intros Hpq Hin Hq Hp. induction l as [|e l IH]; [done|]. cbn [List.filter].
  destruct Hin as [->|Hin].
  - rewrite Hq, Hp. cbn [length].
    pose proof (filter_length_mono p q l Hpq). lia.
  - specialize (IH Hin). destruct (p e) eqn:Hpe.
    + rewrite (Hpq _ Hpe). cbn [length]. lia.
    + destruct (q e); cbn [length]; lia.
Qed.

Lemma above_decreases l c c' :
  zs2_lt c c' -> In c' l -> (above l c' < above l c)%nat.
Proof.
  intros Hlt Hin. unfold above.
  apply (filter_length_lt _ _ l c'); [|done|done|apply zs2_ltb_irrefl].
  intros a Ha. apply ZS2Order.zs2_ltb_lt in Hlt, Ha.
  apply ZS2Order.zs2_ltb_lt. lra.
Qed.

Lemma nat_above (r : R) : exists n : nat, (r < INR n)%R.
Proof.
  destruct (archimed r) as [Hup _].
  exists (Z.to_nat (up r)). rewrite INR_IZR_INZ.
  destruct (Z.le_gt_cases 0 (up r)) as [Hpos|Hneg].
  - by rewrite Z2Nat.id.
  - replace (Z.to_nat (up r)) with O by lia. apply IZR_lt in Hneg.
    change (Z.of_nat 0) with 0%Z. lra.
Qed.

Section Termination.

Variable this : Finder.
Variable grid : Grid.
Variable endNode : Node.

Local Abbreviation nbrs n := (getNeighbors grid n (diagonalMovement this)).
Local Abbreviation psearch := (pure_search this grid endNode).
Local Abbreviation psweeps := (pure_sweeps this grid endNode).
Local Abbreviation hwt := (hw this endNode).
Local Abbreviation pwalk := (walk this grid endNode).

(** The grid is finite, and on it the weighted estimate is bounded below. *)
Variable cells : list Node.
Hypothesis Hclosed : closed_under grid (diagonalMovement this) cells.
Variable B : R.
Hypothesis HB : forall m, In m cells -> (- B <= toR (hwt m))%R.

(** Every step costs at least 1, so a call entered with [g] recurses at most
    about [cutoff + B - g] deep. *)
Lemma pure_search_total k : forall node g cutoff,
  In node cells ->
  (toR cutoff + B - toR g < INR k)%R ->
  psearch (S k) node g cutoff <> None.
Proof.
  induction k as [|k IH]; intros node g cutoff Hin Hk;
    rewrite pure_search_unfold.
  - cbn [INR] in Hk.
    assert (zs2_ltb cutoff (zs2_add g (hwt node)) = true) as ->; [|done].
    apply ZS2Order.zs2_ltb_lt. rewrite ZS2Order.toR_add.
    specialize (HB _ Hin). lra.
  - destruct (zs2_ltb cutoff _); [done|].
    destruct (decide (node = endNode)); [done|].
    apply pure_loop_total. intros nb Hnb. apply IH.
    + by eapply Hclosed.
    + rewrite ZS2Order.toR_add. pose proof (cost_ge_1 node nb).
      rewrite S_INR in Hk. lra.
Qed.

(** A finite bound is the f-value of some cell, reached by steps that only
    add to the two coefficients of [g]. *)
Lemma pure_search_candidate fuel : forall node g cutoff b,
  In node cells ->
  psearch fuel node g cutoff = Some (PBound (Fin b)) ->
  exists a d m, In m cells /\ rat g <= a /\ irr g <= d /\
                b = zs2_add (ZS2 a d) (hwt m).
Proof.
  induction fuel as [|fuel IH]; intros node g cutoff b Hin; [done|].
  rewrite pure_search_unfold.
  destruct (zs2_ltb cutoff _).
  { intros [= <-]. exists (rat g), (irr g), node.
    split_and!; [done|lia|lia|by destruct g]. }
  destruct (decide (node = endNode)); [done|].
  intros Hloop.
  apply (pure_loop_bound
           (fun t => match t with
                     | Fin b => exists a d m, In m cells /\ rat g <= a /\
                                  irr g <= d /\ b = zs2_add (ZS2 a d) (hwt m)
                     | Infinity => True
                     end)) in Hloop; [done| |done].
  intros nb [b'|] Hnb Hcall; [|done].
  apply IH in Hcall as (a & d & m & Hm & Ha & Hd & ->);
    [|by eapply Hclosed].
  pose proof (cost_coefficients node nb) as [? ?].
  cbn [zs2_add rat irr] in Ha, Hd.
  exists a, d, m. split_and!; [done|lia|lia|done].
Qed.

Lemma candidate_in K a d m :
  0 <= a <= Z.of_nat K -> 0 <= d <= Z.of_nat K -> In m cells ->
  In (zs2_add (ZS2 a d) (hwt m)) (candidates this endNode cells K).
Proof.
  intros Ha Hd Hm. unfold candidates.
  apply in_flat_map. exists (Z.to_nat a). split; [apply in_seq; lia|].
  apply in_flat_map. exists (Z.to_nat d). split; [apply in_seq; lia|].
  apply in_map_iff. exists m. by rewrite !Z2Nat.id by lia.
Qed.

Lemma coefficients_bounded K a d :
  0 <= a -> 0 <= d -> (toR (ZS2 a d) <= INR K)%R ->
  a <= Z.of_nat K /\ d <= Z.of_nat K.
Proof.
  intros Ha Hd. unfold toR; cbn [rat irr]. rewrite INR_IZR_INZ. intros Hle.
  pose proof ZS2Order.sqrt2_gt_1 as Hs.
  apply IZR_le in Ha, Hd.
  assert (IZR d <= IZR d * sqrt 2)%R by nra.
  assert (0 <= IZR d * sqrt 2)%R by nra.
  split; apply le_IZR; lra.
Qed.

Variable start : Node.
Hypothesis Hstart : In start cells.

(** Some path [q] leads from the start to the goal, with f at most [M]
    along it; [K] is a whole number above every cut-off plus [B]. *)
Variable q : list Node.
Variable M Cmax : R.
Variable K : nat.
Hypothesis Hq : pwalk start q.
Hypothesis HM : f_below this endNode M zs2_zero q.
Hypothesis HCmax : (M <= Cmax)%R.
Hypothesis HK : (Cmax + B < INR K)%R.

Lemma pure_sweeps_finds j : forall fuel cutoff,
  (toR cutoff <= Cmax)%R ->
  (above (candidates this endNode cells K) cutoff < j)%nat ->
  (K < fuel)%nat ->
  exists cs p, psweeps j fuel start cutoff = (cs, Some p) /\ pwalk start p.
Proof.
  induction j as [|j IH]; intros fuel cutoff Hc Hj Hfuel; [lia|].
  destruct fuel as [|k]; [lia|].
  cbn [pure_sweeps].
  assert (Hk : (toR cutoff + B - toR zs2_zero < INR k)%R).
  { rewrite ZS2Order.toR_zero.
    assert (INR K <= INR k)%R by (apply le_INR; lia). lra. }
  pose proof (pure_search_total k start zs2_zero cutoff Hstart Hk) as Hsome.
  destruct (psearch (S k) start zs2_zero cutoff) as [[t|p]|] eqn:Hs; [| |done].
  - pose proof (pure_search_low this grid endNode M start q Hq _ _ _ _ HM Hs)
      as (b & -> & Hb).
    pose proof (pure_search_beyond _ _ _ _ _ _ _ _ Hs) as Hlt. cbn in Hlt.
    destruct (pure_search_candidate _ _ _ _ _ Hstart Hs)
      as (a & d & m & Hm & Ha & Hd & Hbeq).
    cbn [zs2_zero rat irr] in Ha, Hd.
    assert (Hin : In b (candidates this endNode cells K)).
    { rewrite Hbeq. assert (toR (ZS2 a d) <= INR K)%R as Hle.
      { rewrite Hbeq, ZS2Order.toR_add in Hb. specialize (HB _ Hm). lra. }
      destruct (coefficients_bounded K a d Ha Hd Hle).
      by apply candidate_in. }
    pose proof (above_decreases _ _ _ Hlt Hin).
    destruct (IH (S k) b) as (cs & p & Heq & Hp); [lra|lia|lia|].
    rewrite Heq. eauto.
  - apply pure_search_found in Hs as [Hp _]. eauto.
Qed.

End Termination.

(** * Reachable goals *)

Section Paths.

Variable this : Finder.
Variable grid : Grid.
Variable endNode : Node.

Local Abbreviation pwalk := (walk this grid endNode).
Local Abbreviation hwt := (hw this endNode).

Lemma walk_last n p : pwalk n p -> last p = Some endNode.
Proof.
  induction 1 as [|n m p Hin Hwalk IH]; [done|].
  destruct (walk_head _ _ _ _ _ Hwalk) as [rest ->].
  by rewrite last_cons_cons.
Qed.

Lemma walk_adjacent n p : pwalk n p ->
  forall i a b, p !! i = Some a -> p !! S i = Some b ->
    In b (getNeighbors grid a (diagonalMovement this)).
Proof.
  induction 1 as [|n m p Hin Hwalk IH]; intros i a b Ha Hb.
  - by destruct i.
  - destruct (walk_head _ _ _ _ _ Hwalk) as [rest ->].
    destruct i as [|i]; [|by eapply IH].
    cbn in Ha, Hb. by simplify_eq.
Qed.

Lemma hw_lower_bound cells :
  exists B, forall m, In m cells -> (- B <= toR (hwt m))%R.
Proof.
  induction cells as [|a cells [B HB]].
  - exists 0%R. by intros m [].
  - exists (Rmax B (- toR (hwt a))). intros m [<-|Hin].
    + pose proof (Rmax_r B (- toR (hwt a))). lra.
    + specialize (HB m Hin). pose proof (Rmax_l B (- toR (hwt a))). lra.
Qed.

Lemma f_below_mono M M' q : (M <= M')%R -> forall g,
  f_below this endNode M g q -> f_below this endNode M' g q.
Proof.
  intros HM. induction q as [|a rest IH]; intros g; [done|].
  cbn [f_below]. intros [Ha Hrest]. split; [lra|].
  destruct rest; [done|]. by apply IH.
Qed.

Lemma f_below_exists q : forall g, exists M, f_below this endNode M g q.
Proof.
  induction q as [|a rest IH]; intros g; [by exists 0%R|].
  destruct rest as [|b rest].
  - exists (toR g + toR (hwt a))%R. split; [lra|done].
  - destruct (IH (zs2_add g (cost a b))) as [M HM].
    exists (Rmax M (toR g + toR (hwt a))). split; [apply Rmax_r|].
    eapply f_below_mono; [apply Rmax_l|exact HM].
Qed.

(** On a finite grid, a goal that some path reaches is found once the fuel
    is large enough. *)
Lemma pure_sweeps_reach cells start q cutoff :
  closed_under grid (diagonalMovement this) cells ->
  In start cells ->
  pwalk start q ->
  exists fuel0, forall fuel, (fuel0 <= fuel)%nat ->
    exists cs p,
      pure_sweeps this grid endNode fuel fuel start cutoff = (cs, Some p) /\
      pwalk start p.
Proof.
  intros Hclosed Hstart Hq.
  destruct (hw_lower_bound cells) as [B HB].
  destruct (f_below_exists q zs2_zero) as [M HM].
  destruct (nat_above (Rmax M (toR cutoff) + B)) as [K HK].
  exists (S (K + length (candidates this endNode cells K))).
  intros fuel Hfuel.
  apply (pure_sweeps_finds this grid endNode cells Hclosed B HB start Hstart
           q M (Rmax M (toR cutoff)) K Hq HM).
  - apply Rmax_l.
  - exact HK.
  - apply Rmax_r.
  - unfold above.
    pose proof (List.filter_length_le (zs2_ltb cutoff)
                  (candidates this endNode cells K)). lia.
  - lia.
Qed.

End Paths.


Lemma pairGrid_closed :
  closed_under pairGrid Never [mkNode 0 0; mkNode 1 0].
Proof.
  intros n m [<-|[<-|[]]] Hm; vm_compute in Hm;
    destruct Hm as [<-|[]]; cbn; auto.
Qed.


(** * Beyond the claims: what the search hands back under any clock *)

Section Soundness.

Variable this : Finder.
Variable grid : Grid.
Variable clock : nat -> Z.
Variable startTime : Z.
Variable endNode : Node.

Local Abbreviation nbrs n := (getNeighbors grid n (diagonalMovement this)).
Local Abbreviation sound := (sound_outcome this grid endNode).

Lemma search_loop_sound call node depth neighbors :
  (forall nb, In nb neighbors -> In nb (nbrs node)) ->
  (forall nb route st, sound nb (S depth) route (call nb route st)) ->
  forall min route st,
    sound node depth route
      (search_loop this call node depth neighbors min route st).
Proof.
  intros Hsub Hcall. induction neighbors as [|nb rest IH]; intros min route st;
    cbn [search_loop]; [done|].
  set (st1 := if trackRecursion this then _ else st).
  specialize (Hcall nb route st1).
  destruct (call nb route st1) as [[[[t|n] r] s]|]; cbn in Hcall |- *; [| |done].
  - subst r. apply IH. intros nb' Hin. apply Hsub. by right.
  - destruct Hcall as (-> & p & Hp & ->). split; [done|].
    exists (node :: p). split; [|done].
    econstructor; [|exact Hp]. apply Hsub. by left.
Qed.

Lemma search_sound fuel : forall node g cutoff route depth st,
  sound node depth route
    (search this grid clock startTime endNode fuel node g cutoff route depth st).
Proof.
  induction fuel as [|fuel IH]; intros node g cutoff route depth st;
    cbn [search]; [done|].
  destruct (if limited this then _ else _) as [[|] st1]; [done|].
  destruct (zs2_ltb cutoff _); [done|].
  destruct (decide (node = endNode)) as [->|Hne].
  - cbn. split; [done|]. exists [endNode]. split; [constructor|done].
  - apply search_loop_sound; [done|]. intros nb r s. apply IH.
Qed.

Lemma sweeps_sound j fuel start : forall cutoff st cs route st',
  sweeps this grid clock startTime endNode j fuel start cutoff st
  = (cs, Some (route, st')) ->
  route = [] \/ exists p, walk this grid endNode start p /\ route = route_of p.
Proof.
  induction j as [|j IH]; intros cutoff st cs route st'; cbn [sweeps]; [done|].
  pose proof (search_sound fuel start zs2_zero cutoff [] 0 st) as Hs.
  destruct (search _ _ _ _ _ _ _ _ _ _ _ _) as [[[[[t|]|n] r] s]|].
  - specialize (IH t s).
    destruct (sweeps _ _ _ _ _ j fuel start t s) as [cs' res].
    intros [= _ ->]. by eapply IH.
  - intros [= _ <- _]. by left.
  - cbn in Hs. destruct Hs as (_ & p & Hp & ->).
    intros [= _ <- _]. right. exists p. split; [done|apply fill_top].
  - done.
Qed.

End Soundness.

(** X1.  Whatever findPath returns is either the empty array or a complete
    path: no holes, first the start, last the goal, every step to a
    neighbour under the configured policy.  This holds for every
    configuration and clock, so also when a time limit cuts the search
    short. *)
Theorem findPath_returns_path_or_nothing fuel this clock
    startX startY endX endY grid s route :
  findPath fuel this clock startX startY endX endY grid s = Some route ->
  route = [] \/
  exists p,
    route = route_of p /\
    head p = Some (getNodeAt grid startX startY) /\
    last p = Some (getNodeAt grid endX endY) /\
    (forall i a b, p !! i = Some a -> p !! S i = Some b ->
       In b (getNeighbors grid a (diagonalMovement this))).
Proof.
  unfold findPath, findPath_run.
  destruct (sweeps _ _ _ _ _ _ _ _ _ _) as [cs [[r st']|]] eqn:Hrun; [|done].
  intros [= <-]. apply sweeps_sound in Hrun as [->|(p & Hp & ->)]; [by left|].
  right. exists p. destruct (walk_head _ _ _ _ _ Hp) as [rest ->].
  split_and!; [done|done|by eapply walk_last|by eapply walk_adjacent].
Qed.

Lemma findPath_returns_path_or_nothing_witness :
  [Some (0, 0); Some (1, 0)] = [] \/
  exists p,
    [Some (0, 0); Some (1, 0)] = route_of p /\
    head p = Some (getNodeAt pairGrid 0 0) /\
    last p = Some (getNodeAt pairGrid 1 0) /\
    (forall i a b, p !! i = Some a -> p !! S i = Some b ->
       In b (getNeighbors pairGrid a (diagonalMovement hurriedFinder))).
Proof.
  apply (findPath_returns_path_or_nothing 3 hurriedFinder frozen 0 0 1 0
           pairGrid ∅).
  reflexivity.
Defined.

(** * Beyond the claims: what a call does to its state *)

Section StateFacts.

Variable this : Finder.
Variable grid : Grid.
Variable clock : nat -> Z.
Variable startTime : Z.
Variable endNode : Node.

Local Abbreviation run := (search this grid clock startTime endNode).

(** ** Tracking disabled *)

Lemma search_loop_untracked call node depth neighbors :
  trackRecursion this = false ->
  (forall nb route st r route' st',
     call nb route st = Some (r, route', st') -> store st' = store st) ->
  forall min route st r route' st',
    search_loop this call node depth neighbors min route st
    = Some (r, route', st') ->
    store st' = store st.
Proof.
  intros Hoff Hcall. induction neighbors as [|nb rest IH];
    intros min route st r route' st'; cbn [search_loop].
  - by intros [= _ _ <-].
  - rewrite Hoff.
    destruct (call nb route st) as [[[[t|n] r1] s1]|] eqn:Hc; [| |done].
    + intros Hloop. apply IH in Hloop. apply Hcall in Hc. congruence.
    + intros [= _ _ <-]. by apply Hcall in Hc.
Qed.

Lemma search_untracked fuel : forall node g cutoff route depth st r route' st',
  trackRecursion this = false ->
  run fuel node g cutoff route depth st = Some (r, route', st') ->
  store st' = store st.
Proof.
  induction fuel as [|fuel IH];
    intros node g cutoff route depth st r route' st' Hoff; cbn [search]; [done|].
  destruct (limited this); cbn [count_visit reads].
  - destruct (expired _ _ _); [by intros [= _ _ <-]|].
    destruct (zs2_ltb cutoff _); [by intros [= _ _ <-]|].
    destruct (decide (node = endNode)); [by intros [= _ _ <-]|].
    intros Hloop. eapply search_loop_untracked in Hloop; [done|done|].
    intros nb r0 s0 r1 r2 s1. by apply IH.
  - destruct (zs2_ltb cutoff _); [by intros [= _ _ <-]|].
    destruct (decide (node = endNode)); [by intros [= _ _ <-]|].
    intros Hloop. eapply search_loop_untracked in Hloop; [done|done|].
    intros nb r0 s0 r1 r2 s1. by apply IH.
Qed.

Lemma sweeps_untracked j fuel start : forall cutoff st cs route st',
  trackRecursion this = false ->
  sweeps this grid clock startTime endNode j fuel start cutoff st
  = (cs, Some (route, st')) ->
  store st' = store st.
Proof.
  induction j as [|j IH]; intros cutoff st cs route st' Hoff; cbn [sweeps];
    [done|].
  destruct (run fuel start zs2_zero cutoff [] 0%nat st)
    as [[[[[t|]|n] r] s]|] eqn:Hs; [| | |done];
    apply search_untracked in Hs; try done.
  - specialize (IH t s).
    destruct (sweeps _ _ _ _ _ j fuel start t s) as [cs' res].
    intros [= _ ->]. rewrite <- Hs. by eapply IH.
  - by intros [= _ _ <-].
  - by intros [= _ _ <-].
Qed.

(** ** The flag follows the count *)

Lemma release_consistent s s1 nb :
  (forall n, consistent (info s n)) ->
  same_activity (retain nb s) s1 ->
  forall n, consistent (info (release nb s1) n).
Proof.
  intros Hwf Hsame.
  eapply same_activity_consistent; [|exact Hwf].
  by apply release_retain.
Qed.

Lemma search_loop_consistent call node depth neighbors :
  (forall nb route st t route' st',
     (forall n, consistent (info (store st) n)) ->
     call nb route st = Some (Bound t, route', st') ->
     same_activity (store st) (store st')) ->
  (forall nb route st r route' st',
     (forall n, consistent (info (store st) n)) ->
     call nb route st = Some (r, route', st') ->
     forall n, consistent (info (store st') n)) ->
  forall min route st r route' st',
    (forall n, consistent (info (store st) n)) ->
    search_loop this call node depth neighbors min route st
    = Some (r, route', st') ->
    forall n, consistent (info (store st') n).
Proof.
  intros Hunwind Hcall. induction neighbors as [|nb rest IH];
    intros min route st r route' st' Hwf; cbn [search_loop].
  - by intros [= _ _ <-].
  - destruct (trackRecursion this).
    + destruct (call nb route _) as [[[[t1|n1] r1] s1]|] eqn:Hc; [| |done].
      * apply Hunwind in Hc; [|by apply retain_consistent].
        cbn [on_store store] in Hc.
        apply IH. cbn [on_store store]. by eapply release_consistent.
      * intros [= _ _ <-]. eapply Hcall; [|exact Hc].
        by apply retain_consistent.
    + destruct (call nb route _) as [[[[t1|n1] r1] s1]|] eqn:Hc; [| |done].
      * apply IH. by eapply Hcall.
      * intros [= _ _ <-]. by eapply Hcall.
Qed.

Lemma search_consistent fuel : forall node g cutoff route depth st r route' st',
  (forall n, consistent (info (store st) n)) ->
  run fuel node g cutoff route depth st = Some (r, route', st') ->
  forall n, consistent (info (store st') n).
Proof.
  induction fuel as [|fuel IH];
    intros node g cutoff route depth st r route' st' Hwf; cbn [search]; [done|].
  destruct (limited this); cbn [count_visit reads].
  - destruct (expired _ _ _); [by intros [= _ _ <-]|].
    destruct (zs2_ltb cutoff _); [by intros [= _ _ <-]|].
    destruct (decide (node = endNode)); [by intros [= _ _ <-]|].
    apply search_loop_consistent; [| |done].
    + intros nb r0 s0 t r1 s1. apply search_unwinds.
    + intros nb r0 s0 r1 r2 s1. apply IH.
  - destruct (zs2_ltb cutoff _); [by intros [= _ _ <-]|].
    destruct (decide (node = endNode)); [by intros [= _ _ <-]|].
    apply search_loop_consistent; [| |done].
    + intros nb r0 s0 t r1 s1. apply search_unwinds.
    + intros nb r0 s0 r1 r2 s1. apply IH.
Qed.

Lemma sweeps_consistent j fuel start : forall cutoff st cs route st',
  (forall n, consistent (info (store st) n)) ->
  sweeps this grid clock startTime endNode j fuel start cutoff st
  = (cs, Some (route, st')) ->
  forall n, consistent (info (store st') n).
Proof.
  induction j as [|j IH]; intros cutoff st cs route st' Hwf; cbn [sweeps];
    [done|].
  destruct (run fuel start zs2_zero cutoff [] 0%nat st)
    as [[[[[t|]|n] r] s]|] eqn:Hs; [| | |done];
    pose proof (search_consistent _ _ _ _ _ _ _ _ _ _ Hwf Hs) as Hs'.
  - specialize (IH t s).
    destruct (sweeps _ _ _ _ _ j fuel start t s) as [cs' res].
    intros [= _ ->]. by eapply IH.
  - by intros [= _ _ <-].
  - by intros [= _ _ <-].
Qed.

(** ** Clock readings *)

Lemma search_loop_reads call node depth neighbors :
  (forall nb route st r route' st',
     call nb route st = Some (r, route', st') ->
     (visitedNode st < visitedNode st')%nat /\
     (reads st' + (if limited this then visitedNode st else visitedNode st')
      = reads st + visitedNode st')%nat) ->
  forall min route st r route' st',
    search_loop this call node depth neighbors min route st
    = Some (r, route', st') ->
    (visitedNode st <= visitedNode st')%nat /\
    (reads st' + (if limited this then visitedNode st else visitedNode st')
     = reads st + visitedNode st')%nat.
Proof.
  intros Hcall. induction neighbors as [|nb rest IH];
    intros min route st r route' st'; cbn [search_loop].
  - intros [= _ _ <-]. destruct (limited this); lia.
  - set (st1 := if trackRecursion this then _ else st).
    assert (Hst1 : visitedNode st1 = visitedNode st /\ reads st1 = reads st)
      by (subst st1; by destruct (trackRecursion this)).
    destruct Hst1 as [Hv Hr].
    destruct (call nb route st1) as [[[[t1|n1] r1] s1]|] eqn:Hc; [| |done].
    + apply Hcall in Hc as [Hlt Heq].
      set (st3 := if trackRecursion this then _ else s1).
      assert (Hst3 : visitedNode st3 = visitedNode s1 /\ reads st3 = reads s1)
        by (subst st3; by destruct (trackRecursion this)).
      destruct Hst3 as [Hv3 Hr3].
      intros Hloop. apply IH in Hloop as [Hle Heq'].
      rewrite Hv3, Hr3 in *. rewrite Hv, Hr in *.
      destruct (limited this); lia.
    + apply Hcall in Hc as [Hlt Heq]. intros [= _ _ <-].
      rewrite Hv, Hr in *. destruct (limited this); lia.
Qed.

Lemma search_reads fuel : forall node g cutoff route depth st r route' st',
  run fuel node g cutoff route depth st = Some (r, route', st') ->
  (visitedNode st < visitedNode st')%nat /\
  (reads st' + (if limited this then visitedNode st else visitedNode st')
   = reads st + visitedNode st')%nat.
Proof.
  induction fuel as [|fuel IH];
    intros node g cutoff route depth st r route' st'; cbn [search]; [done|].
  destruct (limited this) eqn:Hlim; cbn [count_visit reads].
  - destruct (expired _ _ _); [intros [= _ _ <-]; cbn; lia|].
    destruct (zs2_ltb cutoff _); [intros [= _ _ <-]; cbn; lia|].
    destruct (decide (node = endNode)); [intros [= _ _ <-]; cbn; lia|].
    intros Hloop. eapply search_loop_reads in Hloop.
    + rewrite Hlim in Hloop. cbn in Hloop. lia.
    + intros nb r0 s0 r1 r2 s1 Hc. rewrite Hlim. by apply IH in Hc.
  - destruct (zs2_ltb cutoff _); [intros [= _ _ <-]; cbn; lia|].
    destruct (decide (node = endNode)); [intros [= _ _ <-]; cbn; lia|].
    intros Hloop. eapply search_loop_reads in Hloop.
    + rewrite Hlim in Hloop. cbn in Hloop. lia.
    + intros nb r0 s0 r1 r2 s1 Hc. rewrite Hlim. by apply IH in Hc.
Qed.

Lemma sweeps_reads j fuel start : forall cutoff st cs route st',
  sweeps this grid clock startTime endNode j fuel start cutoff st
  = (cs, Some (route, st')) ->
  (visitedNode st + length cs <= visitedNode st')%nat /\
  (reads st' + (if limited this then visitedNode st else visitedNode st')
   = reads st + visitedNode st')%nat.
Proof.
  induction j as [|j IH]; intros cutoff st cs route st'; cbn [sweeps]; [done|].
  destruct (run fuel start zs2_zero cutoff [] 0%nat st)
    as [[[[[t|]|n] r] s]|] eqn:Hs; [| | |done];
    apply search_reads in Hs as [Hlt Heq].
  - specialize (IH t s).
    destruct (sweeps _ _ _ _ _ j fuel start t s) as [cs' res].
    intros [= <- ->]. destruct (IH cs' route st' eq_refl) as [Hle Heq'].
    cbn [length]. destruct (limited this); lia.
  - intros [= <- _ <-]. cbn [length]. destruct (limited this); lia.
  - intros [= <- _ <-]. cbn [length]. destruct (limited this); lia.
Qed.

End StateFacts.

(** X2.  With recursion tracking disabled, findPath leaves the fields of
    every node exactly as it found them, whatever it returns. *)
Theorem untracked_leaves_nodes_alone fuel this clock
    startX startY endX endY grid s s' :
  trackRecursion this = false ->
  findPath_store fuel this clock startX startY endX endY grid s = Some s' ->
  s' = s.
Proof.
  intros Hoff. unfold findPath_store, findPath_run.
  destruct (sweeps _ _ _ _ _ _ _ _ _ _) as [cs [[r st']|]] eqn:Hrun; [|done].
  intros [= <-]. cbn [snd]. by apply sweeps_untracked in Hrun.
Qed.

Lemma untracked_leaves_nodes_alone_witness :
  retain (mkNode 1 0) ∅ = retain (mkNode 1 0) ∅.
Proof.
  apply (untracked_leaves_nodes_alone 3 plainFinder frozen 0 0 1 0 pairGrid
           (retain (mkNode 1 0) ∅) (retain (mkNode 1 0) ∅)).
  - reflexivity.
  - vm_compute. reflexivity.
Defined.

(** X3.  Recursion tracking keeps flag and count in step: if on every node
    the count is not negative and the node is marked as being visited
    exactly when its count is positive, the same holds after findPath,
    whether it found a path, gave up or timed out. *)
Theorem tracking_keeps_flag_with_count fuel this clock
    startX startY endX endY grid s s' :
  (forall n, consistent (info s n)) ->
  findPath_store fuel this clock startX startY endX endY grid s = Some s' ->
  forall n, consistent (info s' n).
Proof.
  intros Hwf. unfold findPath_store, findPath_run.
  destruct (sweeps _ _ _ _ _ _ _ _ _ _) as [cs [[r st']|]] eqn:Hrun; [|done].
  intros [= <-]. cbn [snd].
  eapply sweeps_consistent; [|exact Hrun]. exact Hwf.
Qed.

Lemma empty_store_consistent n : consistent (info ∅ n).
Proof.
  unfold consistent, activity, info. rewrite lookup_empty.
  cbn. split; [lia|]. split; [done|lia].
Qed.

Lemma tracking_keeps_flag_with_count_witness :
  consistent
    (info (<[(1, 0) := mkInfo (Some 1) (Some true)]> ∅ : NodeStore)
       (mkNode 1 0)).
Proof.
  apply (tracking_keeps_flag_with_count 2 trackingFinder frozen 0 0 1 0
           pairGrid ∅).
  - exact empty_store_consistent.
  - vm_compute. reflexivity.
Defined.

(** X4.  The clock is read once for the start time and then once per node
    examined while the time limit is positive; with a limit that is not
    positive it is read for the start time only.  Every sweep examines at
    least one node. *)
Theorem clock_read_once_per_node fuel this clock
    startX startY endX endY grid s cs route st' :
  findPath_run fuel this clock startX startY endX endY grid s
  = (cs, Some (route, st')) ->
  reads st' = (if limited this then S (visitedNode st') else 1%nat) /\
  (length cs <= visitedNode st')%nat.
Proof.
  unfold findPath_run. intros Hrun.
  apply sweeps_reads in Hrun as [Hle Heq]. cbn [visitedNode reads] in *.
  destruct (limited this); lia.
Qed.

Lemma clock_read_once_per_node_witness :
  reads (mkState 2 3 ∅) = (if limited plainFinder then 3%nat else 1%nat) /\
  (length [zs2_one] <= 2)%nat.
Proof.
  apply (clock_read_once_per_node 3 plainFinder frozen 0 0 1 0 pairGrid ∅
           [zs2_one] [Some (0, 0); Some (1, 0)] (mkState 2 3 ∅)).
  vm_compute. reflexivity.
Defined.

(** * Beyond the claims: estimate, step cost and configuration *)

Lemma zs2_eqb_eq u v : zs2_eqb u v = true <-> u = v.
Proof.
  destruct u as [a b], v as [c d]. unfold zs2_eqb; cbn [rat irr].
  rewrite andb_true_iff, !Z.eqb_eq. split; [intros [-> ->]|intros [= -> ->]]; done.
Qed.

Lemma zs2_ltb_of_Z a b : zs2_ltb (zs2_of_Z a) (zs2_of_Z b) = (a <? b).
Proof.
  destruct (Z.ltb_spec a b) as [Hlt|Hge].
  - apply ZS2Order.zs2_ltb_lt. rewrite !ZS2Order.toR_of_Z. by apply IZR_lt.
  - apply ZS2Order.zs2_ltb_ge. rewrite !ZS2Order.toR_of_Z. by apply IZR_le.
Qed.

(** X5.  The estimate and the step cost do not depend on direction:
    [h(a, b) = h(b, a)] for whatever heuristic is configured, and
    [cost(a, b) = cost(b, a)].  The cost of a step is never below 1 and
    never above √2. *)
Theorem estimate_and_cost_symmetric this a b :
  h this a b = h this b a /\
  cost a b = cost b a /\
  zs2_le zs2_one (cost a b) /\
  zs2_le (cost a b) SQRT2.
Proof.
  split_and!.
  - unfold h. f_equal; lia.
  - unfold cost. by rewrite (Z.eqb_sym (x a)), (Z.eqb_sym (y a)).
  - apply ZS2Order.zs2_ltb_ge. rewrite ZS2Order.toR_one. apply cost_ge_1.
  - apply ZS2Order.zs2_ltb_ge. unfold cost. destruct (_ || _).
    + rewrite ZS2Order.toR_one, ZS2Order.toR_SQRT2.
      pose proof ZS2Order.sqrt2_gt_1. lra.
    + lra.
Qed.


(** X7.  A finder built by the constructor can time out only if a finite,
    positive time limit was passed in, and then only at a clock reading more
    than limit × 1000 after the start. *)
Theorem timeout_needs_positive_limit opt startTime now :
  limited (IDAStarFinder opt) && expired (IDAStarFinder opt) startTime now
  = true ->
  exists v,
    opt_timeLimit opt = Some (Fin v) /\
    zs2_lt zs2_zero v /\
    zs2_lt (zs2_mul v (zs2_of_Z 1000)) (zs2_of_Z (now - startTime)).
Proof.
  unfold limited, expired. cbn [IDAStarFinder timeLimit].
  destruct (opt_timeLimit opt) as [[v|]|]; [|done|done].
  cbn [num_truthy]. destruct (zs2_truthy v); [|done].
  cbn [num_ltb num_times_1000]. rewrite andb_true_iff. intros [Hpos Hlate].
  by exists v.
Qed.

Lemma timeout_needs_positive_limit_witness :
  exists v,
    opt_timeLimit
      (mkOptions None None None None None None (Some (Fin zs2_one)))
    = Some (Fin v) /\
    zs2_lt zs2_zero v /\
    zs2_lt (zs2_mul v (zs2_of_Z 1000)) (zs2_of_Z (5000 - 0)).
Proof.
  apply (timeout_needs_positive_limit
           (mkOptions None None None None None None (Some (Fin zs2_one)))
           0 5000).
  reflexivity.
Defined.



(** * Beyond the claims: the first sweep under a weight *)

Lemma zs2_add_zero_l v : zs2_add zs2_zero v = v.
Proof. by destruct v. Qed.

Lemma pure_sweeps_head this grid endNode j fuel start cutoff :
  hd_error (fst (pure_sweeps this grid endNode (S j) fuel start cutoff))
  = Some cutoff.
Proof.
  cbn [pure_sweeps].
  destruct (pure_search _ _ _ _ _ _ _) as [[[t|]|p]|]; try done.
  by destruct (pure_sweeps _ _ _ j fuel start t).
Qed.

Lemma pure_sweeps_step this grid endNode j fuel start cutoff t :
  pure_search this grid endNode fuel start zs2_zero cutoff
  = Some (PBound (Fin t)) ->
  fst (pure_sweeps this grid endNode (S j) fuel start cutoff)
  = cutoff :: fst (pure_sweeps this grid endNode j fuel start t).
Proof.
  intros Hs. cbn [pure_sweeps]. rewrite Hs.
  by destruct (pure_sweeps this grid endNode j fuel start t).
Qed.



(** X15.  With the time limit at Infinity, which is what the constructor
    sets when no limit or the limit 0 is passed, the clock has no say:
    findPath returns the same under every clock. *)
Theorem unlimited_ignores_clock fuel this clock1 clock2
    startX startY endX endY grid s :
  timeLimit this = Infinity ->
  findPath fuel this clock1 startX startY endX endY grid s
  = findPath fuel this clock2 startX startY endX endY grid s /\
  cutoffs fuel this clock1 startX startY endX endY grid s
  = cutoffs fuel this clock2 startX startY endX endY grid s.
Proof.
  intros Hlimit.
  assert (Hnever : forall clock, never_expires this clock).
  { intros clock k. unfold limited, expired. by rewrite Hlimit. }
  by rewrite !findPath_pure, !cutoffs_pure.
Qed.

Lemma unlimited_ignores_clock_witness :
  findPath 8 plainFinder frozen 0 0 2 2 (MatrixGrid.open 3 3) ∅
  = findPath 8 plainFinder lateClock 0 0 2 2 (MatrixGrid.open 3 3) ∅ /\
  cutoffs 8 plainFinder frozen 0 0 2 2 (MatrixGrid.open 3 3) ∅
  = cutoffs 8 plainFinder lateClock 0 0 2 2 (MatrixGrid.open 3 3) ∅.
Proof.
  apply (unlimited_ignores_clock 8 plainFinder frozen lateClock).
  reflexivity.
Defined.

(** * Beyond the claims: when the outer loop can stop *)

Section LiveCells.

Variable this : Finder.
Variable grid : Grid.
Variable endNode : Node.

Local Abbreviation nbrs n := (getNeighbors grid n (diagonalMovement this)).
Local Abbreviation psearch := (pure_search this grid endNode).
Local Abbreviation psweeps := (pure_sweeps this grid endNode).
Local Abbreviation pwalk := (walk this grid endNode).

(** A set of cells closed under neighbours in which no cell is a dead end. *)
Variable cells : list Node.
Hypothesis Hclosed : closed_under grid (diagonalMovement this) cells.
Hypothesis Hlive : forall n, In n cells -> nbrs n <> [].

Lemma pure_loop_finite call node neighbors :
  (forall nb, In nb neighbors -> call nb <> Some (PBound Infinity)) ->
  forall min,
    neighbors <> [] \/ min <> Infinity ->
    pure_loop call node neighbors min <> Some (PBound Infinity).
Proof.
  induction neighbors as [|nb rest IH]; intros Hcall min Hmin;
    cbn [pure_loop].
  - destruct Hmin as [?|Hmin]; [done|]. by intros [= ->].
  - pose proof (Hcall nb (or_introl eq_refl)) as Hnb.
    destruct (call nb) as [[[b|]|p]|]; [|done|done|done].
    apply IH.
    + intros nb' Hin. apply Hcall. by right.
    + right. destruct min as [m|]; cbn; [by destruct (zs2_ltb b m)|done].
Qed.

(** Among such cells the search never comes back with Infinity: some branch
    is always pruned at a finite f. *)
Lemma pure_search_finite fuel : forall node g cutoff,
  In node cells ->
  psearch fuel node g cutoff <> Some (PBound Infinity).
Proof.
  induction fuel as [|fuel IH]; intros node g cutoff Hin; [done|].
  rewrite pure_search_unfold.
  destruct (zs2_ltb cutoff _); [done|].
  destruct (decide (node = endNode)); [done|].
  apply pure_loop_finite; [|left; by apply Hlive].
  intros nb Hnb. apply IH. by eapply Hclosed.
Qed.

Lemma walk_stays n p : pwalk n p -> In n cells -> In endNode cells.
Proof.
  induction 1 as [|n m p Hin Hwalk IH]; [done|].
  intros Hn. apply IH. by eapply Hclosed.
Qed.

Lemma pure_sweeps_live j fuel start : forall cutoff,
  In start cells ->
  snd (psweeps j fuel start cutoff) <> Some [] /\
  (~ In endNode cells -> snd (psweeps j fuel start cutoff) = None).
Proof.
  induction j as [|j IH]; intros cutoff Hstart; cbn [pure_sweeps]; [done|].
  pose proof (pure_search_finite fuel start zs2_zero cutoff Hstart) as Hfin.
  destruct (psearch fuel start zs2_zero cutoff) as [[[b|]|p]|] eqn:Hs;
    [| done | | done].
  - specialize (IH b Hstart).
    by destruct (psweeps j fuel start b).
  - apply pure_search_found in Hs as [Hp _]. cbn [snd]. split.
    + destruct (walk_head _ _ _ _ _ Hp) as [rest ->]. done.
    + intros Hout. destruct Hout. by eapply walk_stays.
Qed.

End LiveCells.


Lemma walledGrid_closed :
  closed_under walledGrid Never [mkNode 0 0; mkNode 1 0].
Proof.
  intros n m [<-|[<-|[]]] Hm; vm_compute in Hm;
    destruct Hm as [<-|[]]; cbn; auto.
Qed.


(** * Beyond the claims: what tracking leaves behind on success *)

Lemma coord_inj n m : coord n = coord m -> n = m.
Proof. destruct n, m. by intros [= -> ->]. Qed.

Lemma retain_activity s nb n :
  activity (info (retain nb s) n)
  = if decide (nb = n)
    then ((if fst (activity (info s nb)) + 1 =? 0 then 1
           else fst (activity (info s nb)) + 1), true)
    else activity (info s n).
Proof.
  unfold retain. rewrite info_insert.
  destruct (decide (nb = n)) as [->|Hne].
  - rewrite decide_True by done. unfold activity.
    cbn [retainCount tested default fst].
    rewrite bool_decide_eq_true_2 by done. f_equal.
    by destruct (retainCount (info s n)).
  - rewrite decide_False; [done|]. intros Heq. by apply coord_inj in Heq.
Qed.

Lemma retain_same s s' nb :
  same_activity s s' -> same_activity (retain nb s) (retain nb s').
Proof.
  intros Hsame n. rewrite !retain_activity.
  destruct (decide (nb = n)); [by rewrite (Hsame nb)|apply Hsame].
Qed.

Lemma retains_same l : forall s s',
  same_activity s s' -> same_activity (retains l s) (retains l s').
Proof.
  induction l as [|nb l IH]; intros s s' Hsame; [done|].
  cbn [retains fold_left]. apply IH. by apply retain_same.
Qed.

Lemma retains_consistent l : forall s,
  (forall n, consistent (info s n)) ->
  forall n, consistent (info (retains l s) n).
Proof.
  induction l as [|nb l IH]; intros s Hwf; [done|].
  cbn [retains fold_left]. apply IH. by apply retain_consistent.
Qed.

Lemma occurrences_cons nb l n :
  occurrences n (nb :: l) = (if decide (nb = n) then 1 else 0) + occurrences n l.
Proof.
  unfold occurrences. cbn [count_occ].
  destruct (Node_eq_dec nb n) as [Heq|Hne].
  - rewrite decide_True by done. lia.
  - rewrite decide_False by done. lia.
Qed.

Lemma retains_count l : forall s n,
  (forall m, consistent (info s m)) ->
  fst (activity (info (retains l s) n))
  = fst (activity (info s n)) + occurrences n l.
Proof.
  induction l as [|nb l IH]; intros s n Hwf.
  - unfold occurrences. cbn. lia.
  - cbn [retains fold_left]. fold (retains l (retain nb s)).
    rewrite IH by by apply retain_consistent.
    rewrite retain_activity, occurrences_cons.
    destruct (decide (nb = n)) as [->|Hne]; [|lia].
    cbn [fst]. destruct (Hwf n) as [Hpos _].
    destruct (Z.eqb_spec (fst (activity (info s n)) + 1) 0); lia.
Qed.

Section Marks.

Variable this : Finder.
Variable grid : Grid.
Variable clock : nat -> Z.
Variable startTime : Z.
Variable endNode : Node.
Hypothesis Htrack : trackRecursion this = true.

Local Abbreviation run := (search this grid clock startTime endNode).

Lemma search_loop_marks call node depth neighbors :
  (forall nb route st t r s,
     call nb route st = Some (Bound t, r, s) -> r = route) ->
  (forall nb route st t r s,
     (forall n, consistent (info (store st) n)) ->
     call nb route st = Some (Bound t, r, s) ->
     same_activity (store st) (store s)) ->
  (forall nb route st t r s,
     (forall n, consistent (info (store st) n)) ->
     call nb route st = Some (Found t, r, s) ->
     exists p, r = fill (S depth) (map coord p) route /\
               head p = Some nb /\
               same_activity (store s) (retains (tail p) (store st))) ->
  forall min route st t r s,
    (forall n, consistent (info (store st) n)) ->
    search_loop this call node depth neighbors min route st
    = Some (Found t, r, s) ->
    exists p, r = fill depth (map coord p) route /\
              head p = Some node /\
              same_activity (store s) (retains (tail p) (store st)).
Proof.
  intros Hroute Hbound Hfound. induction neighbors as [|nb rest IH];
    intros min route st t r s Hwf; cbn [search_loop]; [done|].
  rewrite Htrack.
  destruct (call nb route _) as [[[[t1|n1] r1] s1]|] eqn:Hc; [| |done].
  - pose proof (Hroute _ _ _ _ _ _ Hc) as ->.
    apply Hbound in Hc; [|by apply retain_consistent].
    cbn [on_store store] in Hc. apply release_retain in Hc; [|done].
    intros Hloop. apply IH in Hloop as (p & -> & Hhd & Hsame).
    + exists p. split_and!; [done|done|].
      cbn [on_store store] in Hsame. intros n. rewrite Hsame.
      symmetry. by apply retains_same.
    + cbn [on_store store]. by eapply same_activity_consistent.
  - intros [= <- <- <-].
    apply Hfound in Hc as (p & -> & Hhd & Hsame); [|by apply retain_consistent].
    exists (node :: p). split_and!; [done|done|].
    cbn [tail]. apply head_Some in Hhd as [rest' ->].
    cbn [tail] in Hsame. exact Hsame.
Qed.

Lemma search_marks fuel : forall node g cutoff route depth st t r s,
  (forall n, consistent (info (store st) n)) ->
  run fuel node g cutoff route depth st = Some (Found t, r, s) ->
  exists p, r = fill depth (map coord p) route /\
            head p = Some node /\
            same_activity (store s) (retains (tail p) (store st)).
Proof.
  induction fuel as [|fuel IH]; intros node g cutoff route depth st t r s Hwf;
    [done|].
  pose proof (fun nb rt s0 =>
    search_sound this grid clock startTime endNode fuel nb
      (zs2_add g (cost node nb)) cutoff rt (S depth) s0) as Hsound.
  cbn [search].
  destruct (limited this); cbn [count_visit reads].
  - destruct (expired _ _ _); [done|].
    destruct (zs2_ltb cutoff _); [done|].
    destruct (decide (node = endNode)).
    { intros [= _ <- <-]. by exists [node]. }
    change (store st) with (store (count_read (count_visit st))).
    apply search_loop_marks; [| | |done].
    + intros nb rt s0 t1 r1 s1 Hc. specialize (Hsound nb rt s0).
      by rewrite Hc in Hsound.
    + intros nb rt s0 t1 r1 s1. apply search_unwinds.
    + intros nb rt s0 t1 r1 s1. apply IH.
  - destruct (zs2_ltb cutoff _); [done|].
    destruct (decide (node = endNode)).
    { intros [= _ <- <-]. by exists [node]. }
    change (store st) with (store (count_visit st)).
    apply search_loop_marks; [| | |done].
    + intros nb rt s0 t1 r1 s1 Hc. specialize (Hsound nb rt s0).
      by rewrite Hc in Hsound.
    + intros nb rt s0 t1 r1 s1. apply search_unwinds.
    + intros nb rt s0 t1 r1 s1. apply IH.
Qed.

Lemma sweeps_marks j fuel start : forall cutoff st cs route st',
  (forall n, consistent (info (store st) n)) ->
  sweeps this grid clock startTime endNode j fuel start cutoff st
  = (cs, Some (route, st')) ->
  route <> [] ->
  exists p, route = route_of p /\
            same_activity (store st') (retains (tail p) (store st)).
Proof.
  induction j as [|j IH]; intros cutoff st cs route st' Hwf; cbn [sweeps];
    [done|].
  destruct (run fuel start zs2_zero cutoff [] 0%nat st)
    as [[[[[t|]|n] r] s]|] eqn:Hs; [| | |done].
  - apply search_unwinds in Hs; [|done].
    specialize (IH t s).
    destruct (sweeps _ _ _ _ _ j fuel start t s) as [cs' res].
    intros [= _ ->] Hne.
    destruct (IH cs' route st') as (p & -> & Hsame);
      [by eapply same_activity_consistent|done|done|].
    exists p. split; [done|]. intros m. rewrite Hsame.
    symmetry. by apply retains_same.
  - by intros [= _ <- _].
  - apply search_marks in Hs as (p & -> & _ & Hsame); [|done].
    intros [= _ <- <-] _. exists p. split; [apply fill_top|done].
Qed.

End Marks.

(** X14.  What recursion tracking leaves on the grid after a success.  If
    every node was at rest before the call and findPath returns a path, then
    afterwards each node's active depth count equals the number of times it
    occurs on the returned path after the start, and the node is marked as
    being visited exactly when that number is positive; all other nodes are
    at rest again. *)
Theorem tracking_marks_returned_path fuel this clock
    startX startY endX endY grid s cs route st' :
  trackRecursion this = true ->
  (forall n, at_rest (info s n)) ->
  findPath_run fuel this clock startX startY endX endY grid s
  = (cs, Some (route, st')) ->
  route <> [] ->
  exists p,
    route = route_of p /\
    forall n,
      activity (info (store st') n)
      = (occurrences n (tail p), bool_decide (0 < occurrences n (tail p))).
Proof.
  intros Htrack Hrest Hrun Hne. unfold findPath_run in Hrun.
  assert (Hwf : forall n, consistent (info s n)).
  { intros m. specialize (Hrest m).
    apply at_rest_activity in Hrest. unfold consistent. rewrite Hrest.
    cbn. split; [lia|]. split; [done|lia]. }
  apply sweeps_marks in Hrun as (p & -> & Hsame); [|done|done|done].
  exists p. split; [done|]. intros n. cbn [store] in Hsame.
  rewrite Hsame.
  pose proof (retains_count (tail p) s n Hwf) as Hcount.
  pose proof (retains_consistent (tail p) s Hwf n) as [_ Hflag].
  pose proof (proj1 (at_rest_activity _) (Hrest n)) as Hzero.
  rewrite Hzero in Hcount. cbn [fst] in Hcount.
  destruct (activity (info (retains (tail p) s) n)) as [c b].
  cbn [fst snd] in *. subst c. f_equal.
  destruct b.
  - symmetry. apply bool_decide_eq_true_2. by apply Hflag.
  - symmetry. apply bool_decide_eq_false_2. intros Hpos.
    apply Hflag in Hpos. done.
Qed.

Lemma tracking_marks_returned_path_witness :
  exists p,
    [Some (0, 0); Some (1, 0)] = route_of p /\
    forall n,
      activity
        (info
           (store (mkState 2 3 (<[(1, 0) := mkInfo (Some 1) (Some true)]> ∅)))
           n)
      = (occurrences n (tail p), bool_decide (0 < occurrences n (tail p))).
Proof.
  apply (tracking_marks_returned_path 2 trackingFinder frozen 0 0 1 0
           pairGrid ∅ [zs2_one] [Some (0, 0); Some (1, 0)]
           (mkState 2 3 (<[(1, 0) := mkInfo (Some 1) (Some true)]> ∅))).
  - reflexivity.
  - intros n. unfold at_rest, info. rewrite lookup_empty. cbn. auto.
  - vm_compute. reflexivity.
  - discriminate.
Defined.

(** * The time limit: the call as a whole *)

Section TimeoutReturns.

Variable this : Finder.
Variable grid : Grid.
Variable clock : nat -> Z.
Variable endNode : Node.

(** From its [k0]-th reading on, the clock is past the limit. *)
Variable k0 : nat.
Hypothesis Hlimited : limited this = true.
Hypothesis Hlate : forall k, (k0 <= k)%nat ->
  expired this (clock O) (clock k) = true.

Local Abbreviation run := (search this grid clock (clock O) endNode).

(** With a limit configured, every call reads the clock. *)
Lemma search_reads_grow fuel node g cutoff route depth st r route' st' :
  run fuel node g cutoff route depth st = Some (r, route', st') ->
  (reads st < reads st')%nat.
Proof.
  intros Hs. apply search_reads in Hs as [Hlt Heq].
  rewrite Hlimited in Heq. lia.
Qed.

(** A loop whose calls return, returns. *)
Lemma search_loop_returns call node depth neighbors r0 :
  (forall nb route st, (r0 <= reads st)%nat -> call nb route st <> None) ->
  (forall nb route st r route' st',
     call nb route st = Some (r, route', st') -> (reads st <= reads st')%nat) ->
  forall min route st, (r0 <= reads st)%nat ->
    search_loop this call node depth neighbors min route st <> None.
Proof.
  intros Hcall Hmono. induction neighbors as [|nb rest IH];
    intros min route st Hr; cbn [search_loop]; [done|].
  set (st1 := if trackRecursion this then _ else st).
  assert (Hr1 : reads st1 = reads st)
    by (subst st1; by destruct (trackRecursion this)).
  destruct (call nb route st1) as [[[[t|n] route1] st2]|] eqn:Hc.
  - apply IH. apply Hmono in Hc.
    assert (reads (if trackRecursion this
                   then on_store (release nb) st2 else st2) = reads st2)
      as -> by (by destruct (trackRecursion this)).
    lia.
  - done.
  - exfalso. eapply Hcall; [|exact Hc]. lia.
Qed.

(** A call of [search] returns once the recursion may go as deep as there
    are readings left before the [k0]-th: every call on the way down takes
    one, and a call entered at or after the [k0]-th returns at once. *)
Lemma search_returns fuel : forall node g cutoff route depth st,
  (k0 <= reads st + fuel)%nat ->
  run (S fuel) node g cutoff route depth st <> None.
Proof.
  induction fuel as [|fuel IH]; intros node g cutoff route depth st Hk.
  - by rewrite (search_late this grid clock endNode k0) by (done || lia).
  - destruct (le_lt_dec k0 (reads st)) as [Hl|Hl].
    { by rewrite (search_late this grid clock endNode k0). }
    remember (S fuel) as fuel' eqn:Hfuel. cbn [search]. subst fuel'.
    rewrite Hlimited. cbn [count_visit reads].
    destruct (expired this (clock O) (clock (reads st))); [done|].
    destruct (zs2_ltb cutoff _); [done|].
    destruct (decide (node = endNode)); [done|].
    apply (search_loop_returns _ _ _ _ (S (reads st))).
    + intros nb r s Hs. apply IH. lia.
    + intros nb r s r1 route1 s1 Hc. apply search_reads_grow in Hc. lia.
    + cbn. lia.
Qed.

(** The outer loop returns as well: every sweep takes a reading. *)
Lemma sweeps_return j : forall fuel start cutoff st,
  (k0 <= reads st + j)%nat ->
  (k0 <= reads st + fuel)%nat ->
  snd (sweeps this grid clock (clock O) endNode (S j) (S fuel) start cutoff st)
  <> None.
Proof.
  induction j as [|j IH]; intros fuel start cutoff st Hj Hf.
  - by rewrite (sweeps_late this grid clock endNode k0) by (done || lia).
  - remember (S j) as j' eqn:Hj'. remember (S fuel) as fuel' eqn:Hfuel.
    cbn [sweeps]. subst j' fuel'.
    pose proof (search_returns fuel start zs2_zero cutoff [] 0%nat st Hf) as Hs.
    destruct (run (S fuel) start zs2_zero cutoff [] 0%nat st)
      as [[[[[t|]|n] r] s]|] eqn:Hrun; [| | |done].
    + apply search_reads_grow in Hrun.
      specialize (IH fuel start t s).
      destruct (sweeps _ _ _ _ _ (S j) (S fuel) start t s) as [cs res].
      cbn [snd] in *. apply IH; lia.
    + done.
    + done.
Qed.

End TimeoutReturns.




(** * Doubles: the order that JavaScript's comparisons see *)

Ltac cmp_cases :=
  repeat match goal with
  | |- context [Z.compare ?a ?b] => destruct (Z.compare_spec a b)
  | H : context [Z.compare ?a ?b] |- _ => destruct (Z.compare_spec a b)
  | |- context [Pos.compare_cont Eq ?a ?b] =>
      change (Pos.compare_cont Eq a b) with (Pos.compare a b);
      destruct (Pos.compare_spec a b)
  | H : context [Pos.compare_cont Eq ?a ?b] |- _ =>
      change (Pos.compare_cont Eq a b) with (Pos.compare a b) in H;
      destruct (Pos.compare_spec a b)
  end.

Ltac sf_cases x y z :=
  destruct x as [[]|[]| |[] ? ?], y as [[]|[]| |[] ? ?], z as [[]|[]| |[] ? ?];
  cbn; try congruence; cmp_cases; cbn; try congruence; try lia.

Lemma SFltb_trans x y z :
  SFltb x y = true -> SFltb y z = true -> SFltb x z = true.
Proof. unfold SFltb. sf_cases x y z. Qed.

Lemma SFleb_trans x y z :
  SFleb x y = true -> SFleb y z = true -> SFleb x z = true.
Proof. unfold SFleb. sf_cases x y z. Qed.

Lemma SFleb_ltb_trans x y z :
  SFleb x y = true -> SFltb y z = true -> SFltb x z = true.
Proof. unfold SFleb, SFltb. sf_cases x y z. Qed.

Lemma SFltb_leb_trans x y z :
  SFltb x y = true -> SFleb y z = true -> SFltb x z = true.
Proof. unfold SFleb, SFltb. sf_cases x y z. Qed.

Lemma SFleb_total x y :
  SFleb x x = true -> SFleb y y = true -> SFltb y x = false ->
  SFleb x y = true.
Proof.
  unfold SFleb, SFltb.
  destruct x as [[]|[]| |[] ? ?], y as [[]|[]| |[] ? ?];
    cbn; try congruence; cmp_cases; cbn; try congruence; try lia.
Qed.

Lemma SFltb_sound x y :
  SFltb x y = true ->
  SFleb x y = true /\ SFleb x x = true /\ SFleb y y = true /\
  SFltb y x = false.
Proof.
  unfold SFleb, SFltb.
  destruct x as [[]|[]| |[] ? ?], y as [[]|[]| |[] ? ?];
    cbn; try congruence; cmp_cases; cbn; try congruence; try lia;
    intros _; split_and!; try done; cmp_cases; try done; lia.
Qed.

Lemma SFleb_sound x y :
  SFleb x y = true ->
  SFleb x x = true /\ SFleb y y = true /\ SFltb y x = false.
Proof.
  unfold SFleb, SFltb.
  destruct x as [[]|[]| |[] ? ?], y as [[]|[]| |[] ? ?];
    cbn; try congruence; cmp_cases; cbn; try congruence; try lia;
    intros _; split_and!; try done; cmp_cases; try done; lia.
Qed.

Lemma SFltb_irrefl x : SFltb x x = false.
Proof.
  unfold SFltb. destruct x as [[]|[]| |[] ? ?]; cbn; try done;
    cmp_cases; try done; lia.
Qed.

(** The same on the numbers themselves. *)

Lemma f64_ltb_trans x y z :
  PrimFloat.ltb x y = true -> PrimFloat.ltb y z = true ->
  PrimFloat.ltb x z = true.
Proof. rewrite !FloatAxioms.ltb_spec. apply SFltb_trans. Qed.

Lemma f64_leb_trans x y z :
  PrimFloat.leb x y = true -> PrimFloat.leb y z = true ->
  PrimFloat.leb x z = true.
Proof. rewrite !FloatAxioms.leb_spec. apply SFleb_trans. Qed.

Lemma f64_leb_ltb_trans x y z :
  PrimFloat.leb x y = true -> PrimFloat.ltb y z = true ->
  PrimFloat.ltb x z = true.
Proof. rewrite FloatAxioms.leb_spec, !FloatAxioms.ltb_spec. apply SFleb_ltb_trans. Qed.

Lemma f64_ltb_leb_trans x y z :
  PrimFloat.ltb x y = true -> PrimFloat.leb y z = true ->
  PrimFloat.ltb x z = true.
Proof. rewrite FloatAxioms.leb_spec, !FloatAxioms.ltb_spec. apply SFltb_leb_trans. Qed.

(** Two numbers that are not NaN are comparable. *)
Lemma f64_leb_total x y :
  Binary64.valid x -> Binary64.valid y -> PrimFloat.ltb y x = false ->
  PrimFloat.leb x y = true.
Proof.
  unfold Binary64.valid. rewrite !FloatAxioms.leb_spec, FloatAxioms.ltb_spec. apply SFleb_total.
Qed.

Lemma f64_ltb_sound x y :
  PrimFloat.ltb x y = true ->
  PrimFloat.leb x y = true /\ Binary64.valid x /\ Binary64.valid y /\
  PrimFloat.ltb y x = false.
Proof.
  unfold Binary64.valid. rewrite !FloatAxioms.leb_spec, !FloatAxioms.ltb_spec. apply SFltb_sound.
Qed.

Lemma f64_leb_sound x y :
  PrimFloat.leb x y = true ->
  Binary64.valid x /\ Binary64.valid y /\ PrimFloat.ltb y x = false.
Proof.
  unfold Binary64.valid. rewrite !FloatAxioms.leb_spec, !FloatAxioms.ltb_spec. apply SFleb_sound.
Qed.

Lemma f64_ltb_irrefl x : PrimFloat.ltb x x = false.
Proof. rewrite FloatAxioms.ltb_spec. apply SFltb_irrefl. Qed.

(** [t === Infinity] holds of Infinity alone. *)
Lemma f64_eqb_infinity t : PrimFloat.eqb t infinity = true -> t = infinity.
Proof.
  rewrite FloatAxioms.eqb_spec. intros H. apply Prim2SF_inj.
  change (Prim2SF infinity) with (S754_infinity false) in *.
  unfold SFeqb in H.
  destruct (Prim2SF t) as [[]|[]| |[] ? ?]; cbn in H; congruence.
Qed.

(** Adding a zero does not move a number in the order. *)
Lemma f64_ltb_add_zero c a z :
  PrimFloat.eqb z 0 = true ->
  PrimFloat.ltb c (a + z) = PrimFloat.ltb c a.
Proof.
  rewrite FloatAxioms.eqb_spec, !FloatAxioms.ltb_spec, FloatAxioms.add_spec.
  change (Prim2SF 0) with (S754_zero false).
  unfold SF64add, SFadd, SFeqb, SFltb.
  destruct (Prim2SF z) as [[]|[]| |[] ? ?]; cbn; try congruence; intros _;
    destruct (Prim2SF a) as [[]|[]| |[] ? ?], (Prim2SF c) as [[]|[]| |[] ? ?];
    reflexivity.
Qed.

(** ** Sums of numbers that are not negative

    Rounding does not produce NaN or change the sign: a sum of two numbers
    at or above zero is a number at or above zero (possibly Infinity). *)

Lemma shr_1_nonneg mrs : 0 <= shr_m mrs -> 0 <= shr_m (shr_1 mrs).
Proof.
  destruct mrs as [m r s]. cbn. destruct m as [|[p|p|]|[p|p|]]; cbn; lia.
Qed.

Lemma iter_shr_1_nonneg p : forall mrs,
  0 <= shr_m mrs -> 0 <= shr_m (SpecFloat.iter_pos shr_1 p mrs).
Proof.
  induction p as [p IH|p IH|]; intros mrs H; cbn [SpecFloat.iter_pos].
  - apply IH, IH. by apply shr_1_nonneg.
  - by apply IH, IH.
  - by apply shr_1_nonneg.
Qed.

Lemma shr_fexp_nonneg prec emax m e l :
  0 <= m -> 0 <= shr_m (fst (shr_fexp prec emax m e l)).
Proof.
  intros H. unfold shr_fexp, shr.
  assert (H0 : 0 <= shr_m (shr_record_of_loc m l)) by (by destruct l as [|[]]).
  destruct (_ - e) as [|p|p]; cbn [fst]; [done| |done].
  by apply iter_shr_1_nonneg.
Qed.

Lemma binary_round_aux_sign prec emax sx mx ex lx :
  0 <= mx ->
  match binary_round_aux prec emax sx mx ex lx with
  | S754_nan => False
  | S754_zero s | S754_infinity s | S754_finite s _ _ => s = sx
  end.
Proof.
  intros H. unfold binary_round_aux.
  pose proof (shr_fexp_nonneg prec emax mx ex lx H) as H1.
  destruct (shr_fexp prec emax mx ex lx) as [mrs' e']. cbn [fst] in H1.
  assert (H2 : 0 <= round_nearest_even (shr_m mrs') (loc_of_shr_record mrs')).
  { unfold round_nearest_even. destruct (loc_of_shr_record mrs') as [|[]];
      try destruct (Z.even _); lia. }
  pose proof (shr_fexp_nonneg prec emax _ e' loc_Exact H2) as H3.
  destruct (shr_fexp prec emax _ e' loc_Exact) as [mrs'' e'']. cbn [fst] in H3.
  destruct (shr_m mrs'') as [|m|m]; cbn; [done| |lia].
  by destruct (e'' <=? emax - prec).
Qed.

Lemma SFadd_nonneg prec emax x y :
  SFleb (S754_zero false) x = true -> SFleb (S754_zero false) y = true ->
  SFleb (S754_zero false) (SFadd prec emax x y) = true.
Proof.
  unfold SFleb.
  destruct x as [[]|[]| |[] mx ex], y as [[]|[]| |[] my ey]; cbn; try done.
  intros _ _.
  set (m1 := (shl_align mx ex (ex `min` ey)).1).
  set (m2 := (shl_align my ey (ex `min` ey)).1).
  change (Z.pos m1 + Z.pos m2) with (Z.pos (m1 + m2)).
  unfold binary_normalize, binary_round.
  destruct (shl_align (m1 + m2) _ _) as [mz ez].
  pose proof (binary_round_aux_sign prec emax false (Z.pos mz) ez loc_Exact
                ltac:(lia)) as Hs.
  destruct (binary_round_aux _ _ _ _ _ _) as [s|s| |s m e]; cbn in Hs;
    try done; by subst s.
Qed.

Lemma f64_add_nonneg a b :
  PrimFloat.leb 0 a = true -> PrimFloat.leb 0 b = true ->
  PrimFloat.leb 0 (a + b) = true.
Proof.
  rewrite !FloatAxioms.leb_spec, FloatAxioms.add_spec.
  change (Prim2SF 0) with (S754_zero false). apply SFadd_nonneg.
Qed.

(** The cost of a path as [search] adds it up is therefore a number at or
    above zero, and not NaN. *)
Lemma accum_nonneg64 p : forall g,
  PrimFloat.leb 0 g = true -> PrimFloat.leb 0 (Binary64.accum g p) = true.
Proof.
  induction p as [|a [|b rest] IH]; intros g Hg; [done..|].
  change (Binary64.accum g (a :: b :: rest))
    with (Binary64.accum (g + Binary64.cost a b) (b :: rest)).
  apply IH, f64_add_nonneg; [done|].
  unfold Binary64.cost. by destruct (_ || _).
Qed.

(** * Doubles: the search, with and without its bookkeeping *)

Section Refinement64.

Variable this : Binary64.Finder.
Variable grid : Grid.
Variable clock : nat -> Z.
Variable endNode : Node.
Hypothesis Hclock : Binary64.never_expires this clock.

Lemma search_loop_refines64 call pcall node depth neighbors :
  (forall neighbor route st,
      Binary64.refines endNode (S depth) route (call neighbor route st)
        (pcall neighbor)) ->
  forall min route st,
    Binary64.refines endNode depth route
      (Binary64.search_loop this call node depth neighbors min route st)
      (Binary64.pure_loop pcall node neighbors min).
Proof.
  intros Hcall. induction neighbors as [|nb rest IH]; intros min route st;
    cbn [Binary64.search_loop Binary64.pure_loop].
  - cbn. eauto.
  - set (st1 := if Binary64.trackRecursion this then _ else st).
    specialize (Hcall nb route st1).
    destruct (pcall nb) as [[t|p]|]; cbn [Binary64.refines] in Hcall.
    + destruct Hcall as [st2 ->]. apply IH.
    + destruct Hcall as [st2 ->]. cbn. eauto.
    + by rewrite Hcall.
Qed.

Lemma search_refines64 fuel : forall node g cutoff route depth st,
  Binary64.refines endNode depth route
    (Binary64.search this grid clock (clock O) endNode fuel node g cutoff
       route depth st)
    (Binary64.pure_search this grid endNode fuel node g cutoff).
Proof.
  induction fuel as [|fuel IH]; intros node g cutoff route depth st;
    cbn [Binary64.search Binary64.pure_search]; [done|].
  assert (Hno : forall st0 : State,
    (if Binary64.limited this
     then (Binary64.expired this (clock O) (clock (reads st0)), count_read st0)
     else (false, st0)) =
    (false, if Binary64.limited this then count_read st0 else st0)).
  { intros st0. specialize (Hclock (reads st0)).
    destruct (Binary64.limited this); [|done]. cbn [andb] in Hclock.
    by rewrite Hclock. }
  rewrite Hno. fold (Binary64.hw this endNode node).
  destruct (PrimFloat.ltb cutoff _); [cbn; eauto|].
  destruct (decide (node = endNode)) as [->|Hne]; [cbn; eauto|].
  apply search_loop_refines64. intros nb route' st'. apply IH.
Qed.

Lemma sweeps_refines64 j fuel start : forall cutoff st,
  fst (Binary64.sweeps this grid clock (clock O) endNode j fuel start cutoff st)
  = fst (Binary64.pure_sweeps this grid endNode j fuel start cutoff) /\
  option_map fst
    (snd (Binary64.sweeps this grid clock (clock O) endNode j fuel start
            cutoff st))
  = option_map route_of
      (snd (Binary64.pure_sweeps this grid endNode j fuel start cutoff)).
Proof.
  induction j as [|j IH]; intros cutoff st;
    cbn [Binary64.sweeps Binary64.pure_sweeps]; [done|].
  pose proof (search_refines64 fuel start 0%float cutoff [] 0 st) as Href.
  destruct (Binary64.pure_search this grid endNode fuel start 0%float cutoff)
    as [[t|p]|]; cbn [Binary64.refines] in Href.
  - destruct Href as [st' ->]. destruct (PrimFloat.eqb t infinity); [done|].
    specialize (IH t st').
    destruct (Binary64.sweeps _ _ _ _ _ j fuel start t st') as [cs r].
    destruct (Binary64.pure_sweeps _ _ _ j fuel start t) as [cs' r'].
    cbn in *. destruct IH as [-> ->]. done.
  - destruct Href as [st' ->]. cbn. by rewrite fill_top.
  - by rewrite Href.
Qed.

End Refinement64.

(** [findPath] in terms of the pure sweeps, when no time limit is hit. *)
Lemma findPath_pure64 fuel this clock startX startY endX endY grid s :
  Binary64.never_expires this clock ->
  Binary64.findPath fuel this clock startX startY endX endY grid s
  = option_map route_of
      (snd (Binary64.pure_sweeps this grid (getNodeAt grid endX endY) fuel fuel
              (getNodeAt grid startX startY)
              (Binary64.h this (getNodeAt grid startX startY)
                 (getNodeAt grid endX endY)))).
Proof.
  intros Hclock. unfold Binary64.findPath, Binary64.findPath_run.
  apply sweeps_refines64, Hclock.
Qed.

(** * Doubles: what the search returns *)

Section PureSearch64.

Variable this : Binary64.Finder.
Variable grid : Grid.
Variable endNode : Node.

Local Abbreviation nbrs n :=
  (getNeighbors grid n (Binary64.diagonalMovement this)).
Local Abbreviation psearch := (Binary64.pure_search this grid endNode).
Local Abbreviation hwt := (Binary64.hw this endNode).
Local Abbreviation pwalk := (Binary64.walk this grid endNode).

Lemma pure_search_unfold64 fuel node g cutoff :
  psearch (S fuel) node g cutoff
  = if PrimFloat.ltb cutoff (g + hwt node)
    then Some (Binary64.PBound (g + hwt node))
    else if decide (node = endNode) then Some (Binary64.PFound [node])
    else
      Binary64.pure_loop
        (fun neighbor =>
           psearch fuel neighbor (g + Binary64.cost node neighbor) cutoff)
        node (nbrs node) infinity.
Proof. reflexivity. Qed.

Lemma walk_head64 n p : pwalk n p -> exists rest, p = n :: rest.
Proof. destruct 1; eauto. Qed.

Lemma pure_loop_found64 call node neighbors : forall min p,
  Binary64.pure_loop call node neighbors min = Some (Binary64.PFound p) ->
  exists nb p',
    In nb neighbors /\ call nb = Some (Binary64.PFound p') /\ p = node :: p'.
Proof.
  induction neighbors as [|nb rest IH]; intros min p;
    cbn [Binary64.pure_loop]; [done|].
  destruct (call nb) as [[t|p1]|] eqn:Hc; [| |done].
  - intros H. apply IH in H as (nb' & p' & Hin & Hc' & ->).
    exists nb', p'. split_and!; [by right|done|done].
  - intros [= <-]. exists nb, p1. split_and!; [by left|done|done].
Qed.

Lemma pure_loop_bound64 (P : float -> Prop) call node neighbors :
  (forall nb t, In nb neighbors -> call nb = Some (Binary64.PBound t) -> P t) ->
  forall min t,
    P min ->
    Binary64.pure_loop call node neighbors min = Some (Binary64.PBound t) ->
    P t.
Proof.
  intros Hcall. induction neighbors as [|nb rest IH]; intros min t Hmin;
    cbn [Binary64.pure_loop].
  - by intros [= <-].
  - destruct (call nb) as [[t1|p1]|] eqn:Hc; [| done |done].
    apply IH.
    + intros nb' t' Hin. apply Hcall. by right.
    + destruct (PrimFloat.ltb t1 min); [|done].
      eapply Hcall; [by left|done].
Qed.

Lemma pure_loop_total64 call node neighbors :
  (forall nb, In nb neighbors -> call nb <> None) ->
  forall min, Binary64.pure_loop call node neighbors min <> None.
Proof.
  induction neighbors as [|nb rest IH]; intros Hcall min;
    cbn [Binary64.pure_loop]; [done|].
  destruct (call nb) as [[t|p]|] eqn:Hc.
  - apply IH. intros nb' Hin. apply Hcall. by right.
  - done.
  - exfalso. by apply (Hcall nb); [left|].
Qed.

(** A path that is found is a walk to the goal, and its f at the goal, which
    is its cost plus the estimate there, was not above the cut-off. *)
Lemma pure_search_found64 fuel : forall node g cutoff p,
  psearch fuel node g cutoff = Some (Binary64.PFound p) ->
  pwalk node p /\
  PrimFloat.ltb cutoff (Binary64.accum g p + hwt endNode) = false.
Proof.
  induction fuel as [|fuel IH]; intros node g cutoff p; [done|].
  rewrite pure_search_unfold64.
  destruct (PrimFloat.ltb cutoff (g + hwt node)) eqn:Hf; [done|].
  destruct (decide (node = endNode)) as [->|Hne].
  - intros [= <-]. split; [constructor|exact Hf].
  - intros Hloop.
    apply pure_loop_found64 in Hloop as (nb & p' & Hin & Hc & ->).
    apply IH in Hc as [Hwalk Hcost].
    split; [by econstructor|].
    destruct (walk_head64 _ _ Hwalk) as [rest ->]. exact Hcost.
Qed.

(** A bound that is returned lies above the cut-off, or is Infinity. *)
Lemma pure_search_beyond64 fuel : forall node g cutoff t,
  psearch fuel node g cutoff = Some (Binary64.PBound t) ->
  PrimFloat.ltb cutoff t = true \/ t = infinity.
Proof.
  induction fuel as [|fuel IH]; intros node g cutoff t; [done|].
  rewrite pure_search_unfold64.
  destruct (PrimFloat.ltb cutoff (g + hwt node)) eqn:Hf.
  { intros [= <-]. by left. }
  destruct (decide (node = endNode)); [done|].
  apply (pure_loop_bound64
           (fun t => PrimFloat.ltb cutoff t = true \/ t = infinity));
    [|by right].
  intros nb t' _. apply IH.
Qed.

(** So a bound that is returned is not NaN. *)
Lemma pure_search_valid64 fuel node g cutoff t :
  psearch fuel node g cutoff = Some (Binary64.PBound t) -> Binary64.valid t.
Proof.
  intros H. apply pure_search_beyond64 in H as [H| ->]; [|reflexivity].
  by apply f64_ltb_sound in H as (_ & _ & H & _).
Qed.

(** The loop keeps the least bound: once one of the calls returns a bound at
    most [M], so does the loop. *)
Lemma pure_loop_low64 M call node neighbors :
  (forall nb t, call nb = Some (Binary64.PBound t) -> Binary64.valid t) ->
  forall min r,
    Binary64.valid min ->
    (PrimFloat.leb min M = true \/
     exists nb, In nb neighbors /\
                forall r', call nb = Some r' -> Binary64.low M r') ->
    Binary64.pure_loop call node neighbors min = Some r ->
    Binary64.low M r.
Proof.
  intros Hvalid. induction neighbors as [|nb rest IH]; intros min r Hmin Hlow;
    cbn [Binary64.pure_loop].
  - intros [= <-]. destruct Hlow as [Hlow|(nb & [] & _)]. exact Hlow.
  - destruct (call nb) as [[t|p]|] eqn:Hc; [|by intros [= <-]|done].
    pose proof (Hvalid _ _ Hc) as Ht.
    apply IH.
    + by destruct (PrimFloat.ltb t min).
    + destruct Hlow as [Hlow|(nb' & [<-|Hin] & Hnb)].
      * left. destruct (PrimFloat.ltb t min) eqn:Hlt; [|done].
        apply f64_ltb_sound. by eapply f64_ltb_leb_trans.
      * left. specialize (Hnb _ Hc). cbn in Hnb.
        destruct (PrimFloat.ltb t min) eqn:Hlt; [done|].
        eapply f64_leb_trans; [|exact Hnb]. by apply f64_leb_total.
      * right. by exists nb'.
Qed.

(** Along a path to the goal on which f stays at or below [M], the search
    does not come back with a bound above [M]. *)
Lemma pure_search_low64 M node q :
  pwalk node q ->
  forall fuel g cutoff r,
    Binary64.f_below this endNode M g q ->
    psearch fuel node g cutoff = Some r ->
    Binary64.low M r.
Proof.
  induction 1 as [|n m p Hin Hwalk IH]; intros fuel g cutoff r Hbelow;
    (destruct fuel as [|fuel]; [done|]); rewrite pure_search_unfold64.
  - destruct Hbelow as [Hf _].
    destruct (PrimFloat.ltb cutoff _); [by intros [= <-]|].
    destruct (decide (endNode = endNode)); [by intros [= <-]|done].
  - destruct (walk_head64 _ _ Hwalk) as [rest ->].
    destruct Hbelow as [Hf Hrest].
    destruct (PrimFloat.ltb cutoff _); [by intros [= <-]|].
    destruct (decide (n = endNode)); [by intros [= <-]|].
    apply pure_loop_low64.
    + intros nb t. apply pure_search_valid64.
    + reflexivity.
    + right. exists m. split; [done|]. intros r'. by apply IH.
Qed.

(** Below [M] the tree is [D] levels deep at most, so the search returns. *)
Lemma pure_search_total64 M D : forall node g cutoff fuel,
  Binary64.bounded this grid endNode M D node g = true ->
  PrimFloat.leb cutoff M = true ->
  (D < fuel)%nat ->
  psearch fuel node g cutoff <> None.
Proof.
  induction D as [|D IH]; intros node g cutoff fuel Hb Hc Hfuel;
    (destruct fuel as [|fuel]; [lia|]); rewrite pure_search_unfold64;
    cbn [Binary64.bounded] in Hb; fold (hwt node) in Hb;
    destruct (PrimFloat.ltb cutoff (g + hwt node)) eqn:Hf; try done;
    destruct (decide (node = endNode)); try done;
    destruct (PrimFloat.ltb M (g + hwt node)) eqn:HM;
    try (by rewrite (f64_leb_ltb_trans _ _ _ Hc HM) in Hf).
  - done.
  - apply pure_loop_total64. intros nb Hin.
    apply IH; [|done|lia].
    rewrite forallb_forall in Hb. by apply Hb.
Qed.

(** The bounds it returns are values of f at nodes of that tree. *)
Lemma pure_search_frontier64 M D : forall node g cutoff fuel t,
  Binary64.bounded this grid endNode M D node g = true ->
  PrimFloat.leb cutoff M = true ->
  psearch fuel node g cutoff = Some (Binary64.PBound t) ->
  t = infinity \/ In t (Binary64.frontier this grid endNode M D node g).
Proof.
  induction D as [|D IH]; intros node g cutoff fuel t Hb Hc;
    (destruct fuel as [|fuel]; [done|]); rewrite pure_search_unfold64;
    cbn [Binary64.bounded Binary64.frontier] in *; fold (hwt node) in *;
    (destruct (PrimFloat.ltb cutoff (g + hwt node)) eqn:Hf;
       [intros [= <-]; right; by left|]);
    destruct (decide (node = endNode)); try done;
    destruct (PrimFloat.ltb M (g + hwt node)) eqn:HM;
    try (by rewrite (f64_leb_ltb_trans _ _ _ Hc HM) in Hf).
  - done.
  - apply (pure_loop_bound64
             (fun t => t = infinity \/
                In t ((g + hwt node)%float ::
                      flat_map
                        (fun neighbor =>
                           Binary64.frontier this grid endNode M D neighbor
                             (g + Binary64.cost node neighbor))
                        (nbrs node))));
      [|by left].
    intros nb t' Hin Hs. rewrite forallb_forall in Hb.
    eapply IH in Hs as [->|Hin']; [by left| |by apply Hb|done].
    right. right. apply in_flat_map. by exists nb.
Qed.

End PureSearch64.

(** * Doubles: the outer loop *)

Lemma above_decreases64 l c c' :
  PrimFloat.ltb c c' = true -> In c' l ->
  (Binary64.above l c' < Binary64.above l c)%nat.
Proof.
  intros Hlt Hin. unfold Binary64.above.
  apply (filter_length_lt _ _ l c'); [|done|done|apply f64_ltb_irrefl].
  intros a Ha. by eapply f64_ltb_trans.
Qed.

Lemma above_length64 l c : (Binary64.above l c <= length l)%nat.
Proof. unfold Binary64.above. apply List.filter_length_le. Qed.

Section Sweeps64.

Variable this : Binary64.Finder.
Variable grid : Grid.
Variable endNode : Node.
Variable start : Node.

Local Abbreviation psearch := (Binary64.pure_search this grid endNode).
Local Abbreviation psweeps := (Binary64.pure_sweeps this grid endNode).
Local Abbreviation pwalk := (Binary64.walk this grid endNode).

Lemma pure_sweeps_unfold64 j fuel cutoff :
  psweeps (S j) fuel start cutoff
  = match psearch fuel start 0%float cutoff with
    | None => ([cutoff], None)
    | Some (Binary64.PFound p) => ([cutoff], Some p)
    | Some (Binary64.PBound t) =>
        if PrimFloat.eqb t infinity then ([cutoff], Some [])
        else
          let '(cutoffs, r) := psweeps j fuel start t in
          (cutoff :: cutoffs, r)
    end.
Proof. reflexivity. Qed.

(** No cut-off rises above a bound on f along some path to the goal. *)
Lemma pure_sweeps_below64 M q :
  pwalk start q ->
  Binary64.f_below this endNode M 0%float q ->
  forall j fuel cutoff,
    PrimFloat.leb cutoff M = true ->
    Forall (fun c => PrimFloat.leb c M = true)
      (fst (psweeps j fuel start cutoff)).
Proof.
  intros Hq HM j fuel. induction j as [|j IH]; intros cutoff Hc;
    [constructor|]. rewrite pure_sweeps_unfold64.
  destruct (psearch fuel start 0%float cutoff) as [[t|p]|] eqn:Hs;
    cbn [fst]; [|by apply Forall_cons..].
  destruct (PrimFloat.eqb t infinity); [by apply Forall_cons|].
  pose proof (pure_search_low64 this grid endNode M start q Hq _ _ _ _ HM Hs)
    as Hlow.
  specialize (IH t Hlow).
  destruct (psweeps j fuel start t) as [cs r]. by apply Forall_cons.
Qed.

(** With a path to the goal along which f stays at or below a finite [M],
    and the tree below [M] no deeper than [D], the sweeps end by finding a
    path under one of their cut-offs. *)
Lemma pure_sweeps_finds64 M D q :
  pwalk start q ->
  Binary64.f_below this endNode M 0%float q ->
  PrimFloat.ltb M infinity = true ->
  Binary64.bounded this grid endNode M D start 0%float = true ->
  forall j fuel cutoff,
    PrimFloat.leb cutoff M = true ->
    (Binary64.above (Binary64.frontier this grid endNode M D start 0%float)
       cutoff < j)%nat ->
    (D < fuel)%nat ->
    exists p c,
      snd (psweeps j fuel start cutoff) = Some p /\
      In c (fst (psweeps j fuel start cutoff)) /\
      psearch fuel start 0%float c = Some (Binary64.PFound p).
Proof.
  intros Hq HM Hfin Hb j fuel. induction j as [|j IH];
    intros cutoff Hc Habove Hfuel; [lia|]. rewrite pure_sweeps_unfold64.
  destruct (psearch fuel start 0%float cutoff) as [[t|p]|] eqn:Hs.
  - pose proof (pure_search_low64 this grid endNode M start q Hq _ _ _ _ HM Hs)
      as Hlow. cbn in Hlow.
    assert (Hne : t <> infinity).
    { intros ->. pose proof (f64_leb_ltb_trans _ _ _ Hlow Hfin) as Hbad.
      by rewrite f64_ltb_irrefl in Hbad. }
    destruct (PrimFloat.eqb t infinity) eqn:Heq;
      [by apply f64_eqb_infinity in Heq|].
    pose proof (pure_search_beyond64 this grid endNode _ _ _ _ _ Hs)
      as [Hbeyond|]; [|done].
    pose proof (pure_search_frontier64 this grid endNode M D _ _ _ _ _ Hb Hc Hs)
      as [|Hin]; [done|].
    pose proof (above_decreases64 _ _ _ Hbeyond Hin) as Hdec.
    destruct (IH t Hlow ltac:(lia) Hfuel) as (p & c & Hp & Hin' & Hfound).
    destruct (psweeps j fuel start t) as [cs r]. cbn [fst snd] in *.
    exists p, c. split_and!; [done|by right|done].
  - exists p, cutoff. split_and!; [done|by left|done].
  - exfalso.
    by eapply (pure_search_total64 this grid endNode M D start 0%float cutoff fuel).
Qed.

End Sweeps64.

(** * Doubles: the cost of the returned path *)


#[local] Set Warnings "-inexact-float".


(** Every walk of at most [k] steps to the goal has its cost among
    [costs_to_goal]. *)
Lemma costs_to_goal_complete this grid endNode n q :
  Binary64.walk this grid endNode n q ->
  forall k g, (length q <= S k)%nat ->
    In (Binary64.accum g q) (Binary64.costs_to_goal this grid endNode k n g).
Proof.
  induction 1 as [|n m p Hin Hwalk IH]; intros k g Hlen.
  - destruct k; cbn [Binary64.costs_to_goal Binary64.accum];
      (destruct (decide (endNode = endNode)); [|done]);
      apply in_or_app; left; by left.
  - destruct (walk_head64 _ _ _ _ _ Hwalk) as [rest ->].
    destruct k as [|k]; [cbn in Hlen; lia|].
    cbn [Binary64.costs_to_goal]. apply in_or_app. right.
    apply in_flat_map. exists m. split; [done|].
    apply IH. cbn in *. lia.
Qed.


(** The same happens under the finder's own defaults for diagonal
    movement. *)
Example default_finder_rounding :
  Binary64.findPath 8 Binary64.diagonalFinder frozen 0 2 4 1
    Binary64.bendGrid ∅
  = Some (route_of [mkNode 0 2; mkNode 1 1; mkNode 2 0; mkNode 3 0; mkNode 4 1]) /\
  Binary64.cutoffs 8 Binary64.diagonalFinder frozen 0 2 4 1
    Binary64.bendGrid ∅
  = [4.4142135623730949%float; 5%float; 5.2426406871192857%float].
Proof. split; vm_compute; reflexivity. Qed.

(** On an open grid of nine by nine cells the diagonal takes two sweeps in
    doubles: eight times √2 added up step by step lies one bit above the
    first cut-off.  In exact arithmetic the two agree and one sweep does. *)
Example open_grid_diagonal_in_doubles :
  Binary64.cutoffs 30 Binary64.diagonalFinder frozen 0 0 8 8
    (MatrixGrid.open 9 9) ∅
  = [11.313708498984761%float; 11.313708498984763%float] /\
  cutoffs 30 diagonalFinder frozen 0 0 8 8 (MatrixGrid.open 9 9) ∅
  = [ZS2 0 8].
Proof. split; vm_compute; reflexivity. Qed.
